(** * The patch-location and batch-application engine of src/autofix.js

    A shallow embedding of [applyAllFixes], of the line fallback of
    [applySingleFix] and of the proposal construction of
    [analyzeAndGetFixes], with the properties the specification states
    about them; and of what the same file does around them: the clean-up
    of the responses of the service, [escapeHtml], the line and word counts
    of [calculateCodeQualityMetrics], the scan of [reviewProject] and the
    counts of [generateSummaryReport].

    Conventions of the embedding.
    - A JavaScript string is a list of code units ([text]).
    - Offsets and line numbers are JavaScript numbers that only ever hold
      integers here; they are [Z], and the sentinel of [indexOf] is [-1].
    - The editor is the host: it owns the document.  What the host answers
      to the k-th [editor.edit] request is given by an oracle
      [host : nat -> edit_reply], so a statement quantified over [host]
      holds for every behaviour of the host.
    - [document.positionAt] is only ever called on offsets inside the text
      just read, so a position is represented by its offset. *)

From Stdlib Require Import Ascii String List ZArith Lia Bool.
From Stdlib Require Import DecimalString.
From Stdlib Require DecimalNat DecimalFacts.
From Stdlib Require Import Sorting.Permutation Sorting.Sorted.
Import ListNotations.

Local Open Scope Z_scope.

(** ** Text *)

Definition text := list ascii.

Definition str (s : string) : text := list_ascii_of_string s.

(** The line feed, code unit 10. *)
Definition LF : ascii := ascii_of_nat 10.

(** [p] occurs in [t] at offset 0. *)
Fixpoint startsWith (t p : text) : bool :=
  match p, t with
  | [], _ => true
  | _ :: _, [] => false
  | a :: p', b :: t' => Ascii.eqb a b && startsWith t' p'
  end.

(** [String.prototype.indexOf] scanning from offset [i] of the original
    string, [t] being what is left to scan. *)
Fixpoint indexOfFrom (t p : text) (i : Z) : Z :=
  if startsWith t p then i
  else match t with
       | [] => -1
       | _ :: t' => indexOfFrom t' p (i + 1)
       end.

(** [fullText.indexOf(searchString)]: the offset of the first occurrence,
    or [-1]; the empty string occurs at offset 0 of every string. *)
Definition indexOf (t p : text) : Z := indexOfFrom t p 0.

(** [searchString.length]. *)
Definition len (t : text) : Z := Z.of_nat (length t).

(** The text after the host has replaced the range between two offsets. *)
Definition replaceRange (t : text) (startOffset endOffset : Z) (s : text) : text :=
  firstn (Z.to_nat startOffset) t ++ s ++ skipn (Z.to_nat endOffset) t.

(** [document.lineCount]: one more than the number of line feeds. *)
Definition lineCount (t : text) : Z :=
  1 + Z.of_nat (count_occ ascii_dec t LF).

(** ** The host *)

(** What [await editor.edit(...)] does: resolve to [true], resolve to
    [false], or reject (an exception at the [await]). *)
Inductive edit_reply : Type :=
| Accepted
| Refused
| Threw.

(** The editor: its document, and how many edits were requested of it. *)
Record editor_state : Type := mkEditor {
  document : text;
  editsRequested : nat
}.

Definition openEditor (t : text) : editor_state := mkEditor t 0.

(** [editor.edit(b => b.replace(range, s))]: only an accepted edit changes
    the document. *)
Definition editor_edit (host : nat -> edit_reply) (ed : editor_state)
    (startOffset endOffset : Z) (s : text) : editor_state * edit_reply :=
  let reply := host (editsRequested ed) in
  let doc := match reply with
             | Accepted => replaceRange (document ed) startOffset endOffset s
             | Refused | Threw => document ed
             end in
  (mkEditor doc (S (editsRequested ed)), reply).

(** ** Proposals *)

(** [class SuggestedFix], with the fields at the types its own comments and
    the prompt give them. *)
Record SuggestedFix : Type := mkFix {
  id : string;
  description : string;
  originalCode : text;
  fixedCode : text;
  lineStart : Z;
  lineEnd : Z;
  severity : string;
  type : string
}.

(** ** applyAllFixes *)

(** The comparator of [sort((a, b) => b.lineStart - a.lineStart)]. *)
Definition compareFn (a b : SuggestedFix) : Z := lineStart b - lineStart a.

(** [Array.prototype.sort] is a stable sort for a consistent comparator:
    [a] goes before [b] when [compareFn a b < 0], and elements that compare
    equal keep their order.  Insertion from the right is such a sort. *)
Fixpoint insertFix (a : SuggestedFix) (l : list SuggestedFix) : list SuggestedFix :=
  match l with
  | [] => [a]
  | b :: l' => if compareFn b a <? 0 then b :: insertFix a l' else a :: l
  end.

Fixpoint sortFixes (l : list SuggestedFix) : list SuggestedFix :=
  match l with
  | [] => []
  | a :: l' => insertFix a (sortFixes l')
  end.

(** An entry of [modifiedRanges]: [{ start, end }]. *)
Record range : Type := mkRange {
  range_start : Z;
  range_end : Z
}.

(** The condition of the [if] inside the loop over [modifiedRanges]. *)
Definition overlapsRange (startOffset endOffset : Z) (r : range) : bool :=
  ((range_start r <=? startOffset) && (startOffset <? range_end r))
  || ((range_start r <? endOffset) && (endOffset <=? range_end r))
  || ((startOffset <=? range_start r) && (range_end r <=? endOffset)).

(** The loop over [modifiedRanges], leaving at the first hit. *)
Definition overlapsAny (startOffset endOffset : Z) (rs : list range) : bool :=
  existsb (overlapsRange startOffset endOffset) rs.

(** The variables of [applyAllFixes] that the loop reads and writes. *)
Record batch_state : Type := mkBatch {
  editor : editor_state;
  appliedCount : nat;
  failedCount : nat;
  skippedCount : nat;
  modifiedRanges : list range
}.

(** The way one iteration of the loop ends. *)
Inductive outcome : Type :=
| Applied          (* [success] was true *)
| NotFound         (* [originalIndex === -1] *)
| SkippedOverlap   (* [overlaps] was true *)
| HostRefused      (* [success] was false *)
| Raised.          (* the [catch] block ran *)

Definition outcome_eqb (a b : outcome) : bool :=
  match a, b with
  | Applied, Applied | NotFound, NotFound | SkippedOverlap, SkippedOverlap
  | HostRefused, HostRefused | Raised, Raised => true
  | _, _ => false
  end.

(** One iteration of [for (const fix of sortedFixes) { try ... catch ... }]. *)
Definition processFix (host : nat -> edit_reply) (st : batch_state)
    (fx : SuggestedFix) : batch_state * outcome :=
  let fullText := document (editor st) in
  let originalIndex := indexOf fullText (originalCode fx) in
  if originalIndex =? -1 then
    (mkBatch (editor st) (appliedCount st) (S (failedCount st))
             (skippedCount st) (modifiedRanges st), NotFound)
  else
    let startOffset := originalIndex in
    let endOffset := originalIndex + len (originalCode fx) in
    if overlapsAny startOffset endOffset (modifiedRanges st) then
      (mkBatch (editor st) (appliedCount st) (failedCount st)
               (S (skippedCount st)) (modifiedRanges st), SkippedOverlap)
    else
      match editor_edit host (editor st) startOffset endOffset (fixedCode fx) with
      | (ed, Accepted) =>
          (mkBatch ed (S (appliedCount st)) (failedCount st) (skippedCount st)
                   (modifiedRanges st ++ [mkRange startOffset endOffset]),
           Applied)
      | (ed, Refused) =>
          (mkBatch ed (appliedCount st) (S (failedCount st)) (skippedCount st)
                   (modifiedRanges st), HostRefused)
      | (ed, Threw) =>
          (mkBatch ed (appliedCount st) (S (failedCount st)) (skippedCount st)
                   (modifiedRanges st), Raised)
      end.

(** The loop, with the log of what happened to each fix, in order. *)
Fixpoint processAll (host : nat -> edit_reply) (st : batch_state)
    (fixes : list SuggestedFix) : batch_state * list (SuggestedFix * outcome) :=
  match fixes with
  | [] => (st, [])
  | fx :: rest =>
      let (st1, o) := processFix host st fx in
      let (st2, log) := processAll host st1 rest in
      (st2, (fx, o) :: log)
  end.

(** The state when the loop is entered. *)
Definition initialBatch (ed : editor_state) : batch_state := mkBatch ed 0 0 0 [].

(** The answer to the warning dialog; [None] is a dismissed dialog. *)
Inductive choice : Type :=
| YesApplyAll
| PreviewFirst
| Cancel.

(** How [applyAllFixes] ends. *)
Inductive batch_result : Type :=
| NothingDone
| Previewed
| Ran (st : batch_state) (log : list (SuggestedFix * outcome)).

Definition applyAllFixes (confirm : option choice) (host : nat -> edit_reply)
    (ed : editor_state) (fixes : list SuggestedFix) : batch_result :=
  match confirm with
  | None | Some Cancel => NothingDone
  | Some PreviewFirst => Previewed
  | Some YesApplyAll =>
      let sortedFixes := sortFixes fixes in
      let (st, log) := processAll host (initialBatch ed) sortedFixes in
      Ran st log
  end.

(** How many entries of a log ended in [o]. *)
Definition countOutcome (o : outcome) (log : list (SuggestedFix * outcome)) : nat :=
  length (filter (fun e => outcome_eqb (snd e) o) log).

(** *** The loop with its exceptions

    The same loop once more, with the exception of the awaited edit as an
    exception: a block of statements ends normally or by a throw, and a
    loop whose body throws is left at once. *)

Inductive ending (A : Type) : Type :=
| Completes (a : A)
| Throws.
Arguments Completes {A} a.
Arguments Throws {A}.

(** The block of the [try]: a rejected [await editor.edit(...)] throws, and
    nothing that follows it in the block is run. *)
Definition tryBlock (host : nat -> edit_reply) (st : batch_state)
    (fx : SuggestedFix) : batch_state * ending outcome :=
  let fullText := document (editor st) in
  let originalIndex := indexOf fullText (originalCode fx) in
  if originalIndex =? -1 then
    (mkBatch (editor st) (appliedCount st) (S (failedCount st))
             (skippedCount st) (modifiedRanges st), Completes NotFound)
  else
    let startOffset := originalIndex in
    let endOffset := originalIndex + len (originalCode fx) in
    if overlapsAny startOffset endOffset (modifiedRanges st) then
      (mkBatch (editor st) (appliedCount st) (failedCount st)
               (S (skippedCount st)) (modifiedRanges st),
       Completes SkippedOverlap)
    else
      match editor_edit host (editor st) startOffset endOffset (fixedCode fx) with
      | (ed, Accepted) =>
          (mkBatch ed (S (appliedCount st)) (failedCount st) (skippedCount st)
                   (modifiedRanges st ++ [mkRange startOffset endOffset]),
           Completes Applied)
      | (ed, Refused) =>
          (mkBatch ed (appliedCount st) (S (failedCount st)) (skippedCount st)
                   (modifiedRanges st), Completes HostRefused)
      | (ed, Threw) =>
          (mkBatch ed (appliedCount st) (failedCount st) (skippedCount st)
                   (modifiedRanges st), Throws)
      end.

(** The block of the [catch]: [failedCount++]. *)
Definition catchBlock (st : batch_state) : batch_state :=
  mkBatch (editor st) (appliedCount st) (S (failedCount st))
          (skippedCount st) (modifiedRanges st).

(** The body of the loop, [try { ... } catch (error) { ... }]. *)
Definition iteration (host : nat -> edit_reply) (st : batch_state)
    (fx : SuggestedFix) : batch_state * ending outcome :=
  match tryBlock host st fx with
  | (st', Completes o) => (st', Completes o)
  | (st', Throws) => (catchBlock st', Completes Raised)
  end.

(** [for (const fix of fixes) body]: a body that throws ends the loop, and
    the fixes after it are not reached. *)
Fixpoint forOf (body : batch_state -> SuggestedFix -> batch_state * ending outcome)
    (st : batch_state) (fixes : list SuggestedFix)
    : batch_state * list (SuggestedFix * outcome) * ending unit :=
  match fixes with
  | [] => (st, [], Completes tt)
  | fx :: rest =>
      match body st fx with
      | (st1, Throws) => (st1, [], Throws)
      | (st1, Completes o) =>
          match forOf body st1 rest with
          | (st2, log, e) => (st2, (fx, o) :: log, e)
          end
      end
  end.

(** ** applySingleFix *)

(** A [vscode.Position]: a line and a character, both zero-based. *)
Record Position : Type := mkPosition {
  line : Z;
  character : Z
}.

(** [new vscode.Position(line, character)]: the constructor of the host
    throws on a negative line or character, and [None] is that throw. *)
Definition newPosition (l c : Z) : option Position :=
  if (l <? 0) || (c <? 0) then None else Some (mkPosition l c).

(** What [applySingleFix] asks of the host: to replace the text between two
    offsets, or the text between the two positions it gives to
    [new vscode.Range], in the order it gives them. *)
Inductive edit_request : Type :=
| ReplaceOffsets (startOffset endOffset : Z) (s : text)
| ReplaceLines (startPos endPos : Position) (s : text).

(** The answer to the dialog of [applySingleFix]; [None] is a dismissed
    dialog. *)
Inductive single_choice : Type :=
| YesApply
| PreviewFirstOne
| NoCancel.

(** How [applySingleFix] ends: without an edit, with a preview, with a
    request to the host, or by the exception of a [Position] that could not
    be made. *)
Inductive single_result : Type :=
| NoEdit
| ShowPreview
| Request (r : edit_request)
| IllegalArgument.

(** The range of the line fallback, [startPos] and [endPos], made before
    the dialog is shown; [None] when one of the two constructors throws. *)
Definition fallbackRange (fx : SuggestedFix) : option (Position * Position) :=
  match newPosition (Z.max 0 (lineStart fx - 1)) 0 with
  | None => None
  | Some startPos =>
      match newPosition (lineEnd fx) 0 with
      | None => None
      | Some endPos => Some (startPos, endPos)
      end
  end.

Definition applySingleFix (confirm : option single_choice) (fullText : text)
    (fx : SuggestedFix) : single_result :=
  let originalIndex := indexOf fullText (originalCode fx) in
  if originalIndex =? -1 then
    match fallbackRange fx with
    | None => IllegalArgument
    | Some (startPos, endPos) =>
        match confirm with
        | Some YesApply =>
            Request (ReplaceLines startPos endPos (fixedCode fx ++ [LF]))
        | _ => NoEdit
        end
    end
  else
    match confirm with
    | Some YesApply =>
        Request (ReplaceOffsets originalIndex
                   (originalIndex + len (originalCode fx)) (fixedCode fx))
    | Some PreviewFirstOne => ShowPreview
    | _ => NoEdit
    end.

(** A line that the document has: zero-based, below [lineCount]. *)
Definition validLine (t : text) (l : Z) : bool :=
  (0 <=? l) && (l <? lineCount t).

(** ** analyzeAndGetFixes: from the parsed response to the proposals *)

Module Analyze.

(** What [JSON.parse] can return, and [undefined] for a property that is
    not there.  Numbers are restricted to the integers; [JSON.parse] yields
    no [NaN]. *)
#[local] Unset Elimination Schemes.
Inductive value : Type :=
| VUndefined
| VNull
| VBool (b : bool)
| VNum (n : Z)
| VStr (s : string)
| VArr (items : list value)
| VObj (fields : list (string * value)).
#[local] Set Elimination Schemes.

(** A function that returns or throws. *)
Inductive completion (A : Type) : Type :=
| Returned (a : A)
| TypeError.
Arguments Returned {A} a.
Arguments TypeError {A}.

(** The own property [k] of a parsed object; of two members with the same
    name [JSON.parse] keeps the later one. *)
Fixpoint lookup (k : string) (fields : list (string * value)) : value :=
  match fields with
  | [] => VUndefined
  | (k', v) :: rest =>
      match lookup k rest with
      | VUndefined => if String.eqb k k' then v else VUndefined
      | later => later
      end
  end.

(** [v.k] for one of the property names read here, none of which a
    prototype defines: reading from [null] or [undefined] throws, from an
    object gives its own property, from any other value [undefined]. *)
Definition getProp (v : value) (k : string) : completion value :=
  match v with
  | VUndefined | VNull => TypeError
  | VObj fields => Returned (lookup k fields)
  | VBool _ | VNum _ | VStr _ | VArr _ => Returned VUndefined
  end.

(** ToBoolean. *)
Definition truthy (v : value) : bool :=
  match v with
  | VUndefined | VNull => false
  | VBool b => b
  | VNum n => negb (n =? 0)
  | VStr s => negb (String.eqb s EmptyString)
  | VArr _ | VObj _ => true
  end.

(** [v || d]. *)
Definition orElse (v d : value) : value := if truthy v then v else d.

(** [class SuggestedFix] as the constructor fills it: whatever it is given. *)
Record SuggestedFix : Type := mkFix {
  id : value;
  description : value;
  originalCode : value;
  fixedCode : value;
  lineStart : value;
  lineEnd : value;
  severity : value;
  type : value
}.

(** The template literal [`fix_${index}`]. *)
Definition fixName (index : nat) : string :=
  String.append "fix_" (DecimalString.NilZero.string_of_uint (Nat.to_uint index)).

(** [fx.k] where [fx] is known not to be [null] or [undefined]. *)
Definition field (fx : value) (k : string) : value :=
  match getProp fx k with
  | Returned v => v
  | TypeError => VUndefined
  end.

(** The callback of [.map((fix, index) => new SuggestedFix(...))]: the
    first property read throws when [fix] is [null]. *)
Definition convertFix (fx : value) (index : nat) : completion SuggestedFix :=
  match getProp fx "id" with
  | TypeError => TypeError
  | Returned _ =>
      Returned (mkFix
        (orElse (field fx "id") (VStr (fixName index)))
        (orElse (field fx "description") (VStr "No description"))
        (orElse (field fx "originalCode") (VStr EmptyString))
        (orElse (field fx "fixedCode") (VStr EmptyString))
        (orElse (field fx "lineStart") (VNum 1))
        (orElse (field fx "lineEnd") (VNum 1))
        (orElse (field fx "severity") (VStr "info"))
        (orElse (field fx "type") (VStr "style")))
  end.

(** [Array.prototype.map] with the index, stopping at the first throw. *)
Fixpoint mapFixes (items : list value) (index : nat) : completion (list SuggestedFix) :=
  match items with
  | [] => Returned []
  | fx :: rest =>
      match convertFix fx index with
      | TypeError => TypeError
      | Returned f =>
          match mapFixes rest (S index) with
          | TypeError => TypeError
          | Returned fs => Returned (f :: fs)
          end
      end
  end.

(** [(parsed.fixes || []).map(...)]: only an array has [map]. *)
Definition convertFixes (parsed : value) : completion (list SuggestedFix) :=
  match getProp parsed "fixes" with
  | TypeError => TypeError
  | Returned v =>
      match orElse v (VArr []) with
      | VArr items => mapFixes items 0
      | _ => TypeError
      end
  end.

Definition isString (v : value) : bool :=
  match v with VStr _ => true | _ => false end.

Definition isNumber (v : value) : bool :=
  match v with VNum _ => true | _ => false end.

(** [null] or [undefined]. *)
Definition isNullish (v : value) : bool :=
  match v with VUndefined | VNull => true | _ => false end.

(** [out] is [v] when [v] is truthy and the default [d] when it is not. *)
Definition keptOrDefault (v d out : value) : Prop :=
  (truthy v = true /\ out = v) \/ (truthy v = false /\ out = d).

(** [r] holds, field by field, what the element [v] at [index] of the
    response gave when that is truthy, and the default of the field when
    it is not. *)
Definition convertedFrom (v : value) (index : nat) (r : SuggestedFix) : Prop :=
  keptOrDefault (field v "id") (VStr (fixName index)) (id r)
  /\ keptOrDefault (field v "description") (VStr "No description") (description r)
  /\ keptOrDefault (field v "originalCode") (VStr EmptyString) (originalCode r)
  /\ keptOrDefault (field v "fixedCode") (VStr EmptyString) (fixedCode r)
  /\ keptOrDefault (field v "lineStart") (VNum 1) (lineStart r)
  /\ keptOrDefault (field v "lineEnd") (VNum 1) (lineEnd r)
  /\ keptOrDefault (field v "severity") (VStr "info") (severity r)
  /\ keptOrDefault (field v "type") (VStr "style") (type r).

End Analyze.

(** ** Notions used in the statements *)

(** The span of the anchor of [fx] in the text [t]: the offsets
    [startOffset] and [endOffset] of the loop, when the anchor is found. *)
Definition anchorSpan (t : text) (fx : SuggestedFix) : option range :=
  let originalIndex := indexOf t (originalCode fx) in
  if originalIndex =? -1 then None
  else Some (mkRange originalIndex (originalIndex + len (originalCode fx))).

(** Two half-open spans share a character offset. *)
Definition spansIntersect (a b : range) : bool :=
  Z.max (range_start a) (range_start b) <? Z.min (range_end a) (range_end b).

(** The anchor of [fx] occurs nowhere in [t]. *)
Definition anchorGone (t : text) (fx : SuggestedFix) : bool :=
  indexOf t (originalCode fx) =? -1.

(** The state in which the loop reaches the [k]-th fix of the sorted batch. *)
Definition stateBefore (host : nat -> edit_reply) (ed : editor_state)
    (fixes : list SuggestedFix) (k : nat) : batch_state :=
  fst (processAll host (initialBatch ed) (firstn k (sortFixes fixes))).

(** The host that accepts every edit. *)
Definition acceptAll : nat -> edit_reply := fun _ => Accepted.

(** The state the loop has reached when the fixes of [l] have been run one
    after the other, the first of [l] first. *)
Definition reached (host : nat -> edit_reply) (ed : editor_state)
    (l : list SuggestedFix) : batch_state :=
  fold_left (fun st fx => fst (processFix host st fx)) l (initialBatch ed).

(** The outcome that goes with an answer of the host. *)
Definition replyOutcome (r : edit_reply) : outcome :=
  match r with
  | Accepted => Applied
  | Refused => HostRefused
  | Threw => Raised
  end.

(** The fix [fx] has been attempted in the state [st] with the outcome [o]:
    its anchor was looked for in the document of [st]; when found, its span
    was tested against the ranges of [st]; and when clear of them, the host
    was asked, the outcome being the one of its answer. *)
Definition attemptedAs (host : nat -> edit_reply) (st : batch_state)
    (fx : SuggestedFix) (o : outcome) : Prop :=
  let i := indexOf (document (editor st)) (originalCode fx) in
  (i = -1 /\ o = NotFound)
  \/ (i <> -1
      /\ overlapsAny i (i + len (originalCode fx)) (modifiedRanges st) = true
      /\ o = SkippedOverlap)
  \/ (i <> -1
      /\ overlapsAny i (i + len (originalCode fx)) (modifiedRanges st) = false
      /\ o = replyOutcome (host (editsRequested (editor st)))).

(** A failed iteration has been absorbed: between [st] and [st'] the host
    was asked once, [failedCount] has grown by one, and the document, the
    recorded ranges and the other two counters are as they were. *)
Definition absorbed (st st' : batch_state) : Prop :=
  document (editor st') = document (editor st)
  /\ editsRequested (editor st') = S (editsRequested (editor st))
  /\ modifiedRanges st' = modifiedRanges st
  /\ appliedCount st' = appliedCount st
  /\ skippedCount st' = skippedCount st
  /\ failedCount st' = S (failedCount st).

(** A proposal with the given anchor, replacement and advisory lines. *)
Definition proposal (name anchor replacement : string) (ls le : Z) : SuggestedFix :=
  mkFix name "No description" (str anchor) (str replacement) ls le "info" "style".

(** The document of the scenario, before and after its fix. *)
Definition evalDocument : text :=
  str "let x = eval(input);" ++ LF :: str "console.log(x);".

Definition parseDocument : text :=
  str "let x = JSON.parse(input);" ++ LF :: str "console.log(x);".

(** The order the batch is put in: [lineStart] never grows. *)
Definition descending (a b : SuggestedFix) : Prop := lineStart a >= lineStart b.

(** The effect of one iteration on the counters, by the way it ended. *)
Definition bump (o : outcome) (a f s : nat) : nat * nat * nat :=
  match o with
  | Applied => (S a, f, s)
  | SkippedOverlap => (a, f, S s)
  | NotFound | HostRefused | Raised => (a, S f, s)
  end.

(** ** escapeHtml *)

(** The code unit 34, the double quote. *)
Definition doubleQuote : ascii := ascii_of_nat 34.

(** [map[m]] for a character [m] that the character class of the regular
    expression matches (ampersand, less than, greater than, double quote,
    single quote), and the character itself for any other. *)
Definition escapeChar (c : ascii) : text :=
  if Ascii.eqb c "&" then str "&amp;"
  else if Ascii.eqb c "<" then str "&lt;"
  else if Ascii.eqb c ">" then str "&gt;"
  else if Ascii.eqb c doubleQuote then str "&quot;"
  else if Ascii.eqb c "'" then str "&#039;"
  else [c].

(** [text.replace(re, m => map[m])], [re] being the global regular
    expression of that character class. *)
Definition escapeHtml (t : text) : text := flat_map escapeChar t.

(** The five characters of the class. *)
Definition isSpecial (c : ascii) : bool :=
  Ascii.eqb c "&" || Ascii.eqb c "<" || Ascii.eqb c ">"
  || Ascii.eqb c doubleQuote || Ascii.eqb c "'".

(** The characters that open or close a tag or an attribute value. *)
Definition isMarkup (c : ascii) : bool :=
  Ascii.eqb c "<" || Ascii.eqb c ">" || Ascii.eqb c doubleQuote
  || Ascii.eqb c "'".

(** ** Cleaning a response of its code fences *)

Definition isTick (c : ascii) : bool := Ascii.eqb c "`".

(** The three backticks of a code fence. *)
Definition fence : text := str "```".

(** What is left of the text after a match when the optional line feed of
    the regular expression is taken. *)
Definition dropLF (t : text) : text :=
  match t with
  | c :: r => if Ascii.eqb c LF then r else t
  | [] => []
  end.

(** [replace(re, '')] for the global regular expression of three backticks
    and an optional line feed: matches are taken from left to right, each
    as long as it can be. *)
Fixpoint stripFence (t : text) : text :=
  match t with
  | [] => []
  | c :: r =>
      match r with
      | c2 :: c3 :: r' =>
          if isTick c && isTick c2 && isTick c3 then
            match r' with
            | d :: r'' => if Ascii.eqb d LF then stripFence r'' else stripFence r'
            | [] => []
            end
          else c :: stripFence r
      | _ => c :: stripFence r
      end
  end.

(** The same for three backticks, the four letters [json] and an optional
    line feed. *)
Fixpoint stripJsonFence (t : text) : text :=
  match t with
  | [] => []
  | c :: r =>
      match r with
      | c2 :: c3 :: c4 :: c5 :: c6 :: c7 :: r' =>
          if isTick c && isTick c2 && isTick c3 && Ascii.eqb c4 "j"
             && Ascii.eqb c5 "s" && Ascii.eqb c6 "o" && Ascii.eqb c7 "n" then
            match r' with
            | d :: r'' =>
                if Ascii.eqb d LF then stripJsonFence r'' else stripJsonFence r'
            | [] => []
            end
          else c :: stripJsonFence r
      | _ => c :: stripJsonFence r
      end
  end.

(** The class [\w]: letters, digits and the underscore. *)
Definition isWord (c : ascii) : bool :=
  let n := nat_of_ascii c in
  ((48 <=? n) && (n <=? 57) || (65 <=? n) && (n <=? 90) || (n =? 95)
   || (97 <=? n) && (n <=? 122))%nat.

(** The same for three backticks, as many word characters as follow and an
    optional line feed.  [inWord] says that a match has begun and is still
    taking word characters. *)
Fixpoint stripLangFenceFrom (inWord : bool) (t : text) : text :=
  match t with
  | [] => []
  | c :: r =>
      if inWord && isWord c then stripLangFenceFrom true r
      else if inWord && Ascii.eqb c LF then stripLangFenceFrom false r
      else
        match r with
        | c2 :: c3 :: r' =>
            if isTick c && isTick c2 && isTick c3 then stripLangFenceFrom true r'
            else c :: stripLangFenceFrom false r
        | _ => c :: stripLangFenceFrom false r
        end
  end.

Definition stripLangFence (t : text) : text := stripLangFenceFrom false t.

(** White space and line terminators among the code units up to 255: tab,
    line feed, vertical tab, form feed, carriage return, space and the
    no-break space. *)
Definition isSpace (c : ascii) : bool :=
  let n := nat_of_ascii c in
  ((9 <=? n) && (n <=? 13) || (n =? 32) || (n =? 160))%nat.

Fixpoint trimStart (t : text) : text :=
  match t with
  | [] => []
  | c :: r => if isSpace c then trimStart r else t
  end.

Definition trimEnd (t : text) : text := rev (trimStart (rev t)).

(** [String.prototype.trim]. *)
Definition trim (t : text) : text := trimEnd (trimStart t).

(** [cleanContent] of [analyzeAndGetFixes]: what is given to [JSON.parse]. *)
Definition cleanContent (content : text) : text :=
  trim (stripFence (stripJsonFence content)).

(** The clean-up of the response in [addFeature] and [quickFixSelection]:
    the code that is shown and then put in the document. *)
Definition cleanCode (content : text) : text :=
  trim (stripFence (stripLangFence content)).

(** How many backticks the text begins with. *)
Fixpoint leadingTicks (t : text) : nat :=
  match t with
  | c :: r => if isTick c then S (leadingTicks r) else O
  | [] => O
  end.

(** ** calculateCodeQualityMetrics *)

(** [content.split('\n')]. *)
Fixpoint splitLines (t : text) : list text :=
  match t with
  | [] => [[]]
  | c :: r =>
      if Ascii.eqb c LF then [] :: splitLines r
      else match splitLines r with
           | l :: ls => (c :: l) :: ls
           | [] => [[c]]
           end
  end.

(** [split(re)] for the regular expression of one or more white-space
    characters; [skipping] says that the separator has begun. *)
Fixpoint splitSpaces (skipping : bool) (t : text) : list text :=
  match t with
  | [] => [[]]
  | c :: r =>
      if isSpace c then
        if skipping then splitSpaces true r else [] :: splitSpaces true r
      else match splitSpaces false r with
           | w :: ws => (c :: w) :: ws
           | [] => [[c]]
           end
  end.

Definition isEmptyText (t : text) : bool :=
  match t with [] => true | _ :: _ => false end.

(** [line.trim() === '']. *)
Definition isEmptyLine (l : text) : bool := isEmptyText (trim l).

(** The test of the filter of [commentLines]. *)
Definition isCommentLine (l : text) : bool :=
  startsWith (trim l) (str "//") || startsWith (trim l) (str "/*")
  || startsWith (trim l) (str "*") || startsWith (trim l) (str "*/")
  || startsWith (trim l) (str "<!--") || startsWith (trim l) (str "-->").

(** The object [metrics].  The complexity score is a floating-point number
    computed by [calculateComplexityScore], kept abstract as [C]. *)
Record codeMetrics (C : Type) : Type := mkMetrics {
  totalLines : nat;
  totalCharacters : nat;
  totalWords : nat;
  emptyLines : nat;
  commentLines : nat;
  complexityScore : C;
  issuesCount : nat
}.
Arguments mkMetrics {C}.
Arguments totalLines {C}.
Arguments totalCharacters {C}.
Arguments totalWords {C}.
Arguments emptyLines {C}.
Arguments commentLines {C}.
Arguments complexityScore {C}.
Arguments issuesCount {C}.

(** [calculateCodeQualityMetrics], given the text of the document, the
    function that scores its complexity and the number of diagnostics the
    collection holds for it (0 when it holds none). *)
Definition calculateCodeQualityMetrics {C : Type}
    (calculateComplexityScore : text -> C) (diagnostics : nat)
    (content : text) : codeMetrics C :=
  let lines := splitLines content in
  mkMetrics
    (length lines)
    (length content)
    (length (filter (fun word => negb (isEmptyText word))
               (splitSpaces false (trim content))))
    (length (filter isEmptyLine lines))
    (length (filter isCommentLine lines))
    (calculateComplexityScore content)
    diagnostics.

(** The sum of the lengths of the lines. *)
Definition charactersIn (lines : list text) : nat :=
  list_sum (map (@length ascii) lines).

(** ** reviewProject: the files that are reviewed *)

(** [String.prototype.includes]. *)
Definition includes (t p : text) : bool := negb (indexOf t p =? -1).

(** What [readdirSync] lists in a directory, as [statSync] tells it: a
    file, a directory with what it holds, or something that is neither. *)
#[local] Unset Elimination Schemes.
Inductive entry : Type :=
| FileEntry (name : text)
| DirEntry (name : text) (items : list entry)
| OtherEntry (name : text).
#[local] Set Elimination Schemes.

Definition entryName (e : entry) : text :=
  match e with
  | FileEntry name | DirEntry name _ | OtherEntry name => name
  end.

(** The names that make the scan pass over a path. *)
Definition noisyNames : list text :=
  [str "node_modules"; str "dist"; str "build"; str ".git"].

(** The condition of the [continue] in [scanDir]. *)
Definition passedOver (fullPath item : text) : bool :=
  includes fullPath (str "node_modules") || includes fullPath (str "dist")
  || includes fullPath (str "build") || includes fullPath (str ".git")
  || startsWith item (str ".").

(** [fileExtensions.includes(ext)]. *)
Definition hasExtension (fileExtensions : list text) (ext : text) : bool :=
  existsb (fun x => if list_eq_dec ascii_dec x ext then true else false)
    fileExtensions.

Section Scan.

(** [path.join] and [path.extname], of Node. *)
Variable pathJoin : text -> text -> text.
Variable extname : text -> text.

(** The configured [fileExtensions]. *)
Variable fileExtensions : list text.

(** The body of the loop of [scanDir] for one item of directory [dir]: the
    paths it pushes on [files], in order. *)
Fixpoint scanItem (dir : text) (e : entry) : list text :=
  let item := entryName e in
  let fullPath := pathJoin dir item in
  if passedOver fullPath item then []
  else match e with
       | DirEntry _ items => flat_map (scanItem fullPath) items
       | FileEntry _ =>
           if hasExtension fileExtensions (extname item) then [fullPath] else []
       | OtherEntry _ => []
       end.

(** [scanDir(dir)], [items] being what the directory holds. *)
Definition scanDir (dir : text) (items : list entry) : list text :=
  flat_map (scanItem dir) items.

(** What is to hold of a path [p] found by the scan of [dir]: it lies under
    [dir], holds none of the noisy names, and is a name joined to a
    directory, the name not opening with a dot and its extension among the
    configured ones. *)
Definition foundUnder (dir p : text) : Prop :=
  (exists rest, p = dir ++ rest)
  /\ Forall (fun n => includes p n = false) noisyNames
  /\ exists d item,
       p = pathJoin d item
       /\ hasExtension fileExtensions (extname item) = true
       /\ startsWith item (str ".") = false.

End Scan.

(** [path.join] of a directory and a name on a POSIX system. *)
Definition posixJoin (dir item : text) : text := dir ++ "/"%char :: item.

(** The part of a text from its last dot on, if it has a dot. *)
Fixpoint fromLastDot (t : text) : option text :=
  match t with
  | [] => None
  | c :: r =>
      match fromLastDot r with
      | Some ext => Some ext
      | None => if Ascii.eqb c "." then Some t else None
      end
  end.

(** [path.extname] of a name of a directory listing: from the last dot on,
    a dot that opens the name not counting. *)
Definition extnameOfName (item : text) : text :=
  match item with
  | [] => []
  | _ :: r => match fromLastDot r with Some ext => ext | None => [] end
  end.

(** ** generateSummaryReport: the counts *)

(** [toLowerCase] on a code unit up to 255: the capital letters of ASCII
    and of Latin-1 go 32 up. *)
Definition toLowerUnit (c : ascii) : ascii :=
  let n := nat_of_ascii c in
  if ((65 <=? n) && (n <=? 90) || (192 <=? n) && (n <=? 214)
      || (216 <=? n) && (n <=? 222))%nat
  then ascii_of_nat (n + 32) else c.

Definition toLowerCase (t : text) : text := map toLowerUnit t.

(** An element of [reviewResults]. *)
Record reviewResult : Type := mkReview {
  file : text;
  review : text
}.

(** The four counters of [generateSummaryReport]. *)
Record issueCounts : Type := mkCounts {
  securityIssues : nat;
  bugs : nat;
  performanceIssues : nat;
  styleIssues : nat
}.

Definition mentionsSecurity (reviewText : text) : bool :=
  includes reviewText (str "security") || includes reviewText (str "vulnerability")
  || includes reviewText (str "injection").

Definition mentionsBug (reviewText : text) : bool :=
  includes reviewText (str "bug") || includes reviewText (str "error")
  || includes reviewText (str "issue") || includes reviewText (str "null").

Definition mentionsPerformance (reviewText : text) : bool :=
  includes reviewText (str "performance") || includes reviewText (str "memory")
  || includes reviewText (str "leak").

Definition mentionsStyle (reviewText : text) : bool :=
  includes reviewText (str "style") || includes reviewText (str "naming")
  || includes reviewText (str "format").

(** The body of the loop over [reviewResults]. *)
Definition countResult (c : issueCounts) (result : reviewResult) : issueCounts :=
  let reviewText := toLowerCase (review result) in
  mkCounts
    (if mentionsSecurity reviewText then S (securityIssues c) else securityIssues c)
    (if mentionsBug reviewText then S (bugs c) else bugs c)
    (if mentionsPerformance reviewText then S (performanceIssues c)
     else performanceIssues c)
    (if mentionsStyle reviewText then S (styleIssues c) else styleIssues c).

(** The counters when the loop of [generateSummaryReport] has ended. *)
Definition countIssues (reviewResults : list reviewResult) : issueCounts :=
  fold_left countResult reviewResults (mkCounts 0 0 0 0).

(** What [reviewProject] records for a file whose review threw [message]. *)
Definition failedReview (filePath message : text) : reviewResult :=
  mkReview filePath (str "Error reviewing file: " ++ message).

Definition isFailedReview (result : reviewResult) : bool :=
  startsWith (review result) (str "Error reviewing file: ").

(** ** Notions used for the loop as a whole *)

(** By how much the accepted edits of a log change the length of the
    document: each puts [fixedCode] where [originalCode] stood. *)
Fixpoint lengthDelta (log : list (SuggestedFix * outcome)) : Z :=
  match log with
  | [] => 0
  | (fx, Applied) :: rest =>
      len (fixedCode fx) - len (originalCode fx) + lengthDelta rest
  | _ :: rest => lengthDelta rest
  end.

(** The iterations of a log that got as far as [editor.edit]. *)
Definition hostCalls (log : list (SuggestedFix * outcome)) : nat :=
  (countOutcome Applied log + countOutcome HostRefused log
   + countOutcome Raised log)%nat.

(** The test of the loop finds the later range clear of the earlier one. *)
Definition clearOf (earlier later : range) : Prop :=
  overlapsRange (range_start later) (range_end later) earlier = false.

(** A recorded range starts inside the text and does not end before it
    starts. *)
Definition wellFormedRange (r : range) : Prop :=
  0 <= range_start r <= range_end r.

(** What the loop keeps true of the recorded ranges. *)
Definition rangesKept (st : batch_state) : Prop :=
  Forall wellFormedRange (modifiedRanges st)
  /\ ForallOrdPairs clearOf (modifiedRanges st).

(** The proposals of a list whose [lineStart] is [k], in their order. *)
Definition atLine (k : Z) (l : list SuggestedFix) : list SuggestedFix :=
  filter (fun fx => lineStart fx =? k) l.

(** * Properties *)

(** ** indexOf *)

Lemma startsWith_nil (t : text) : startsWith t [] = true.
Proof. destruct t; reflexivity. Qed.

Lemma startsWith_app (p s : text) : startsWith (p ++ s) p = true.
Proof.
  induction p as [|a p IH]; simpl.
  - apply startsWith_nil.
  - now rewrite Ascii.eqb_refl, IH.
Qed.

Lemma startsWith_inv (t p : text) :
  startsWith t p = true -> exists s, t = p ++ s.
Proof.
  revert t; induction p as [|a p IH]; intros t H.
  - now exists t.
  - destruct t as [|b t]; simpl in H; [discriminate|].
    apply andb_true_iff in H as [Hab Hp].
    apply Ascii.eqb_eq in Hab; subst b.
    destruct (IH _ Hp) as [s ->]. now exists s.
Qed.

Lemma indexOf_empty (t : text) : indexOf t [] = 0.
Proof. unfold indexOf. destruct t; reflexivity. Qed.

Lemma indexOfFrom_bounds (t p : text) (i : Z) :
  indexOfFrom t p i = -1 \/ i <= indexOfFrom t p i <= i + len t.
Proof.
  revert i; induction t as [|c t IH]; intros i; cbn [indexOfFrom].
  - destruct (startsWith [] p); unfold len; simpl; lia.
  - destruct (startsWith (c :: t) p).
    + right. unfold len. simpl length. lia.
    + destruct (IH (i + 1)) as [H|H]; [now left|right].
      unfold len in *. simpl length. lia.
Qed.

(** A found index is where the anchor stands, with no occurrence before. *)
Lemma indexOfFrom_found (t p : text) (i r : Z) :
  0 <= i -> indexOfFrom t p i = r -> r <> -1 ->
  exists pre post, t = pre ++ p ++ post /\ r = i + len pre
    /\ forall k, (k < length pre)%nat -> startsWith (skipn k t) p = false.
Proof.
  revert i; induction t as [|c t IH]; intros i Hi H Hr; cbn [indexOfFrom] in H.
  - destruct (startsWith [] p) eqn:E; [|congruence].
    apply startsWith_inv in E as [s Hs].
    exists [], s. repeat split; simpl; auto.
    + unfold len; simpl; lia.
    + intros k Hk; inversion Hk.
  - destruct (startsWith (c :: t) p) eqn:E.
    + apply startsWith_inv in E as [s Hs].
      exists [], s. repeat split; simpl; auto.
      * unfold len; simpl; lia.
      * intros k Hk; inversion Hk.
    + destruct (IH (i + 1) ltac:(lia) H Hr) as (pre & post & Ht & Hrr & Hfirst).
      exists (c :: pre), post. repeat split.
      * simpl. now rewrite Ht.
      * unfold len in *. simpl length. lia.
      * intros [|k] Hk; simpl; [exact E|].
        apply Hfirst. simpl in Hk. lia.
Qed.

(** [-1] is returned only when the anchor occurs nowhere. *)
Lemma indexOfFrom_absent (t p : text) (i : Z) :
  0 <= i -> indexOfFrom t p i = -1 ->
  forall pre post, t <> pre ++ p ++ post.
Proof.
  revert i; induction t as [|c t IH]; intros i Hi H pre post Ht; cbn [indexOfFrom] in H.
  - destruct (startsWith [] p) eqn:E; [lia|].
    destruct pre; [|discriminate]. simpl in Ht.
    rewrite Ht, startsWith_app in E. discriminate.
  - destruct (startsWith (c :: t) p) eqn:E; [lia|].
    destruct pre as [|c' pre].
    + simpl in Ht. rewrite Ht, startsWith_app in E. discriminate.
    + injection Ht as _ Ht. exact (IH (i + 1) ltac:(lia) H pre post Ht).
Qed.

Lemma indexOf_absent (t p : text) :
  indexOf t p = -1 -> forall pre post, t <> pre ++ p ++ post.
Proof. apply indexOfFrom_absent; lia. Qed.

Lemma indexOf_found (t p : text) :
  indexOf t p <> -1 ->
  exists pre post, t = pre ++ p ++ post /\ indexOf t p = len pre.
Proof.
  intros H.
  destruct (indexOfFrom_found t p 0 _ ltac:(lia) eq_refl H) as (pre & post & Ht & Hr & _).
  exists pre, post. split; [exact Ht|]. unfold indexOf. lia.
Qed.

(** Replacing the found anchor leaves what stands before and after it. *)
Lemma replaceRange_anchor (pre p post s : text) :
  replaceRange (pre ++ p ++ post) (len pre) (len pre + len p) s = pre ++ s ++ post.
Proof.
  unfold replaceRange, len.
  rewrite Nat2Z.id, <- Nat2Z.inj_add, Nat2Z.id.
  rewrite firstn_app, firstn_all, Nat.sub_diag. simpl. rewrite app_nil_r.
  f_equal. f_equal.
  rewrite app_assoc, <- length_app, skipn_app, skipn_all, Nat.sub_diag.
  reflexivity.
Qed.

(** ** The overlap test *)

(** On spans that hold a character the test of the loop is intersection. *)
Lemma overlapsRange_nonempty (s e : Z) (r : range) :
  s < e -> range_start r < range_end r ->
  overlapsRange s e r = spansIntersect (mkRange s e) r.
Proof.
  intros Hs Hr. unfold overlapsRange, spansIntersect. simpl.
  destruct r as [rs re]; simpl in *.
  destruct (Z.max s rs <? Z.min e re) eqn:E.
  - apply Z.ltb_lt in E.
    destruct (Z_lt_le_dec s rs) as [L|L].
    + destruct (Z_le_gt_dec re e) as [M|M].
      * replace (s <=? rs) with true by (symmetry; apply Z.leb_le; lia).
        replace (re <=? e) with true by (symmetry; apply Z.leb_le; lia).
        now rewrite !orb_true_r.
      * replace (rs <? e) with true by (symmetry; apply Z.ltb_lt; lia).
        replace (e <=? re) with true by (symmetry; apply Z.leb_le; lia).
        simpl. now rewrite orb_true_r.
    + replace (rs <=? s) with true by (symmetry; apply Z.leb_le; lia).
      replace (s <? re) with true by (symmetry; apply Z.ltb_lt; lia).
      reflexivity.
  - apply Z.ltb_ge in E.
    destruct (Z_lt_le_dec s rs) as [L|L].
    + replace (rs <=? s) with false by (symmetry; apply Z.leb_gt; lia).
      replace (rs <? e) with false by (symmetry; apply Z.ltb_ge; lia).
      replace (re <=? e) with false by (symmetry; apply Z.leb_gt; lia).
      simpl. now rewrite andb_false_r.
    + replace (s <? re) with false by (symmetry; apply Z.ltb_ge; lia).
      replace (e <=? re) with false by (symmetry; apply Z.leb_gt; lia).
      replace (re <=? e) with true by (symmetry; apply Z.leb_le; lia).
      replace (s <=? rs) with false by (symmetry; apply Z.leb_gt; lia).
      now rewrite !andb_false_r.
Qed.

(** On an empty span the two differ: the test of the loop reports the
    empty span at offset 2 as overlapping the range from 0 to 5, with which
    it shares no character. *)
Example overlapsRange_empty_span :
  overlapsRange 2 2 (mkRange 0 5) = true
  /\ spansIntersect (mkRange 2 2) (mkRange 0 5) = false.
Proof. split; reflexivity. Qed.

(** ** The ordering of the batch *)

Lemma insertFix_perm (a : SuggestedFix) (l : list SuggestedFix) :
  Permutation (a :: l) (insertFix a l).
Proof.
  induction l as [|b l IH]; simpl; [reflexivity|].
  destruct (compareFn b a <? 0); [|reflexivity].
  rewrite perm_swap. now apply perm_skip.
Qed.

Lemma sortFixes_perm (l : list SuggestedFix) : Permutation l (sortFixes l).
Proof.
  induction l as [|a l IH]; simpl; [reflexivity|].
  rewrite <- insertFix_perm. now apply perm_skip.
Qed.

Lemma sortFixes_length (l : list SuggestedFix) : length (sortFixes l) = length l.
Proof. symmetry. apply Permutation_length, sortFixes_perm. Qed.

Lemma insertFix_sorted (a : SuggestedFix) (l : list SuggestedFix) :
  StronglySorted descending l -> StronglySorted descending (insertFix a l).
Proof.
  induction 1 as [|b l Hl IH Hb]; simpl.
  - constructor; constructor.
  - unfold compareFn. destruct (lineStart a - lineStart b <? 0) eqn:E.
    + apply Z.ltb_lt in E. constructor; [exact IH|].
      rewrite <- (insertFix_perm a l).
      constructor; [unfold descending; lia | exact Hb].
    + apply Z.ltb_ge in E. constructor; [now constructor|].
      constructor; [unfold descending; lia|].
      eapply Forall_impl; [|exact Hb].
      unfold descending; intros; lia.
Qed.

Lemma sortFixes_sorted (l : list SuggestedFix) :
  StronglySorted descending (sortFixes l).
Proof.
  induction l as [|a l IH]; simpl; [constructor | now apply insertFix_sorted].
Qed.

(** A batch that is already in descending order is processed as given. *)
Lemma sortFixes_sorted_id (l : list SuggestedFix) :
  StronglySorted descending l -> sortFixes l = l.
Proof.
  induction 1 as [|a l Hl IH Ha]; simpl; [reflexivity|].
  rewrite IH. destruct l as [|b l]; [reflexivity|]. simpl.
  inversion Ha as [|? ? Hab _]; subst. unfold compareFn, descending in *.
  destruct (lineStart a - lineStart b <? 0) eqn:E; [|reflexivity].
  apply Z.ltb_lt in E. lia.
Qed.

(** ** The loop *)

Section Loop.

(** What the host answers to each edit it is asked for. *)
Variable host : nat -> edit_reply.

Lemma processFix_counters (st : batch_state) (fx : SuggestedFix) :
  let (st', o) := processFix host st fx in
  (appliedCount st', failedCount st', skippedCount st')
  = bump o (appliedCount st) (failedCount st) (skippedCount st).
Proof.
  unfold processFix, editor_edit.
  destruct (indexOf _ _ =? -1); [reflexivity|].
  destruct (overlapsAny _ _ _); [reflexivity|].
  destruct (host _); reflexivity.
Qed.

(** An iteration ends in [NotFound] exactly when the anchor is absent from
    the text the iteration reads. *)
Lemma processFix_NotFound (st : batch_state) (fx : SuggestedFix) :
  snd (processFix host st fx) = NotFound
  <-> anchorGone (document (editor st)) fx = true.
Proof.
  unfold processFix, editor_edit, anchorGone.
  destruct (indexOf _ _ =? -1); [tauto|].
  destruct (overlapsAny _ _ _); [simpl; split; discriminate|].
  destruct (host _); simpl; split; discriminate.
Qed.

(** An absent anchor costs one [failedCount] and touches nothing else. *)
Lemma processFix_gone (st : batch_state) (fx : SuggestedFix) :
  anchorGone (document (editor st)) fx = true ->
  processFix host st fx
  = (mkBatch (editor st) (appliedCount st) (S (failedCount st))
             (skippedCount st) (modifiedRanges st), NotFound).
Proof. unfold processFix, anchorGone. now intros ->. Qed.

Lemma processAll_app (st : batch_state) (l1 l2 : list SuggestedFix) :
  processAll host st (l1 ++ l2)
  = let (st1, log1) := processAll host st l1 in
    let (st2, log2) := processAll host st1 l2 in
    (st2, log1 ++ log2).
Proof.
  revert st; induction l1 as [|fx l1 IH]; intros st; simpl.
  - now destruct (processAll host st l2).
  - destruct (processFix host st fx) as [st1 o].
    rewrite IH.
    destruct (processAll host st1 l1) as [st2 log1].
    now destruct (processAll host st2 l2).
Qed.

(** The log names the fixes of the list, in the order of the list. *)
Lemma processAll_log (st : batch_state) (l : list SuggestedFix) :
  map fst (snd (processAll host st l)) = l.
Proof.
  revert st; induction l as [|fx l IH]; intros st; simpl; [reflexivity|].
  destruct (processFix host st fx) as [st1 o].
  specialize (IH st1). destruct (processAll host st1 l) as [st2 log].
  simpl in *. now rewrite IH.
Qed.

Lemma processAll_log_length (st : batch_state) (l : list SuggestedFix) :
  length (snd (processAll host st l)) = length l.
Proof. rewrite <- (processAll_log st l) at 2. now rewrite length_map. Qed.

Lemma countOutcome_cons (o : outcome) (fx : SuggestedFix) (o' : outcome)
    (log : list (SuggestedFix * outcome)) :
  countOutcome o ((fx, o') :: log)
  = ((if outcome_eqb o' o then 1 else 0) + countOutcome o log)%nat.
Proof. unfold countOutcome. simpl. now destruct (outcome_eqb o' o). Qed.

(** Each counter is its value at entry plus the iterations that ended the
    matching way. *)
Lemma processAll_counters (st : batch_state) (l : list SuggestedFix) :
  let (st', log) := processAll host st l in
  appliedCount st' = (appliedCount st + countOutcome Applied log)%nat
  /\ failedCount st'
     = (failedCount st + (countOutcome NotFound log
         + countOutcome HostRefused log + countOutcome Raised log))%nat
  /\ skippedCount st' = (skippedCount st + countOutcome SkippedOverlap log)%nat.
Proof.
  revert st; induction l as [|fx l IH]; intros st; simpl.
  - unfold countOutcome; simpl. lia.
  - pose proof (processFix_counters st fx) as Hc.
    destruct (processFix host st fx) as [st1 o].
    specialize (IH st1). destruct (processAll host st1 l) as [st2 log].
    rewrite !countOutcome_cons.
    destruct IH as (Ha & Hf & Hs).
    destruct o; simpl in Hc; injection Hc as H1 H2 H3; simpl; lia.
Qed.

Lemma processAll_total (st : batch_state) (l : list SuggestedFix) :
  let st' := fst (processAll host st l) in
  (appliedCount st' + failedCount st' + skippedCount st'
   = appliedCount st + failedCount st + skippedCount st + length l)%nat.
Proof.
  revert st; induction l as [|fx l IH]; intros st; simpl; [lia|].
  pose proof (processFix_counters st fx) as Hc.
  destruct (processFix host st fx) as [st1 o].
  specialize (IH st1). destruct (processAll host st1 l) as [st2 log].
  simpl in *.
  destruct o; simpl in Hc; injection Hc as H1 H2 H3; lia.
Qed.

(** With every anchor gone, the loop only counts failures. *)
Lemma processAll_gone (st : batch_state) (l : list SuggestedFix) :
  Forall (fun fx => anchorGone (document (editor st)) fx = true) l ->
  processAll host st l
  = (mkBatch (editor st) (appliedCount st) (failedCount st + length l)
             (skippedCount st) (modifiedRanges st),
     map (fun fx => (fx, NotFound)) l).
Proof.
  revert st; induction l as [|fx l IH]; intros st H; simpl.
  - rewrite Nat.add_0_r. now destruct st.
  - inversion H as [|? ? Hfx Hl]; subst.
    rewrite (processFix_gone st fx Hfx).
    rewrite IH by exact Hl. simpl.
    do 2 f_equal. lia.
Qed.

(** The log entry of the [k]-th fix is the outcome of the iteration run on
    it from the state the loop had reached. *)
Lemma processAll_nth (st : batch_state) (l : list SuggestedFix) (k : nat)
    (fx : SuggestedFix) :
  nth_error l k = Some fx ->
  nth_error (snd (processAll host st l)) k
  = Some (fx, snd (processFix host (fst (processAll host st (firstn k l))) fx)).
Proof.
  revert st k; induction l as [|a l IH]; intros st k H.
  - destruct k; discriminate.
  - simpl. destruct (processFix host st a) as [st1 o] eqn:E.
    destruct k as [|k]; simpl in H.
    + injection H as ->. destruct (processAll host st1 l); simpl.
      now rewrite E.
    + specialize (IH st1 k H).
      simpl. rewrite E.
      destruct (processAll host st1 l) as [st2 log].
      destruct (processAll host st1 (firstn k l)) as [st3 log3].
      simpl in *. exact IH.
Qed.

End Loop.

Lemma applyAllFixes_ran (host : nat -> edit_reply) (ed : editor_state)
    (fixes : list SuggestedFix) :
  applyAllFixes (Some YesApplyAll) host ed fixes
  = Ran (fst (processAll host (initialBatch ed) (sortFixes fixes)))
        (snd (processAll host (initialBatch ed) (sortFixes fixes))).
Proof.
  unfold applyAllFixes.
  now destruct (processAll host (initialBatch ed) (sortFixes fixes)).
Qed.

(** ** The batch applier *)

(** C2: on the two-line document that calls [eval], the batch of the one
    proposal replacing [eval(input)] by [JSON.parse(input)] at line 1,
    confirmed by the user and accepted by the host, counts one applied fix
    and leaves the document with [JSON.parse(input)] in its first line. *)
Theorem eval_scenario_applied (host : nat -> edit_reply) (i d s ty : string) :
  host 0%nat = Accepted ->
  let fx := mkFix i d (str "eval(input)") (str "JSON.parse(input)") 1 1 s ty in
  applyAllFixes (Some YesApplyAll) host
    (openEditor evalDocument) [fx]
  = Ran (mkBatch
           (mkEditor parseDocument 1)
           1 0 0 [mkRange 8 19])
        [(fx, Applied)].
Proof.
  intros H fx. unfold applyAllFixes. cbn [sortFixes insertFix processAll].
  unfold processFix, editor_edit.
  cbn [editor document openEditor initialBatch editsRequested modifiedRanges].
  change (indexOf _ (originalCode fx)) with 8.
  cbn [Z.eqb Pos.eqb overlapsAny existsb].
  rewrite H. reflexivity.
Qed.

Lemma eval_scenario_applied_witness :
  acceptAll 0%nat = Accepted
  /\ applyAllFixes (Some YesApplyAll) acceptAll
       (openEditor evalDocument)
       [proposal "fix_0" "eval(input)" "JSON.parse(input)" 1 1]
     = Ran (mkBatch
              (mkEditor parseDocument 1)
              1 0 0 [mkRange 8 19])
           [(proposal "fix_0" "eval(input)" "JSON.parse(input)" 1 1, Applied)].
Proof.
  split; [reflexivity|].
  exact (eval_scenario_applied acceptAll "fix_0" "No description" "info" "style" eq_refl).
Defined.

(** C10: when the loop has run, every proposal of the batch has been
    counted once: [appliedCount + failedCount + skippedCount] is the number
    of proposals. *)
Theorem counters_sum_to_batch_size (host : nat -> edit_reply)
    (ed : editor_state) (fixes : list SuggestedFix) :
  exists st log,
    applyAllFixes (Some YesApplyAll) host ed fixes = Ran st log
    /\ (appliedCount st + failedCount st + skippedCount st)%nat = length fixes.
Proof.
  eexists _, _. split; [apply applyAllFixes_ran|].
  pose proof (processAll_total host (initialBatch ed) (sortFixes fixes)) as H.
  cbv zeta in H. rewrite H, sortFixes_length. reflexivity.
Qed.

(** The scenario of C7 run: the host refuses the first edit it is asked
    for, the one of the bottom proposal, and the two above are applied. *)
Example refused_edit_does_not_stop_the_batch :
  let host := fun k => match k with O => Refused | _ => Accepted end in
  let p1 := proposal "p1" "a()" "A()" 1 1 in
  let p2 := proposal "p2" "b()" "B()" 2 2 in
  let p3 := proposal "p3" "c()" "C()" 3 3 in
  applyAllFixes (Some YesApplyAll) host
    (openEditor (str "a()" ++ LF :: str "b()" ++ LF :: str "c()")) [p1; p2; p3]
  = Ran (mkBatch (mkEditor (str "A()" ++ LF :: str "B()" ++ LF :: str "c()") 3)
           2 1 0 [mkRange 4 7; mkRange 0 3])
        [(p3, HostRefused); (p2, Applied); (p1, Applied)].
Proof. vm_compute. reflexivity. Qed.

(** C3, as the specification has it, fails: a proposal whose anchor is not
    in the document is counted in [failedCount], the one counter there is
    besides [appliedCount] and [skippedCount]; no host edit was refused, none
    was even requested. *)
Lemma absent_anchor_counted_as_failed :
  applyAllFixes (Some YesApplyAll) acceptAll (openEditor (str "let x = 1;"))
    [proposal "fix_0" "eval(input)" "JSON.parse(input)" 1 1]
  = Ran (mkBatch (mkEditor (str "let x = 1;") 0) 0 1 0 [])
        [(proposal "fix_0" "eval(input)" "JSON.parse(input)" 1 1, NotFound)]
  /\ countOutcome HostRefused
       [(proposal "fix_0" "eval(input)" "JSON.parse(input)" 1 1, NotFound)] = 0%nat.
Proof. split; vm_compute; reflexivity. Qed.

(** C3, amended: the batch keeps three counts.  [failedCount] counts the
    proposals whose anchor was absent from the document at their step
    together with those whose edit the host refused and those whose
    iteration raised; [appliedCount] and [skippedCount] count the applied
    and the overlapping ones.  An iteration ends as not found exactly when
    the anchor is absent from the document as the loop reaches it. *)
Theorem failed_counts_not_found_refused_and_raised (host : nat -> edit_reply)
    (ed : editor_state) (fixes : list SuggestedFix) :
  exists st log,
    applyAllFixes (Some YesApplyAll) host ed fixes = Ran st log
    /\ appliedCount st = countOutcome Applied log
    /\ failedCount st
       = (countOutcome NotFound log + countOutcome HostRefused log
          + countOutcome Raised log)%nat
    /\ skippedCount st = countOutcome SkippedOverlap log
    /\ forall k fx o,
         nth_error log k = Some (fx, o) ->
         (o = NotFound
          <-> anchorGone (document (editor (stateBefore host ed fixes k))) fx = true).
Proof.
  eexists _, _. split; [apply applyAllFixes_ran|].
  pose proof (processAll_counters host (initialBatch ed) (sortFixes fixes)) as H.
  pose proof (processAll_log host (initialBatch ed) (sortFixes fixes)) as Hlog.
  pose proof (processAll_nth host (initialBatch ed) (sortFixes fixes)) as Hnth.
  destruct (processAll host (initialBatch ed) (sortFixes fixes)) as [st log].
  simpl in *. destruct H as (Ha & Hf & Hs).
  repeat split; try assumption.
  - intros ->.
    assert (Hk : nth_error (sortFixes fixes) k = Some fx).
    { rewrite <- Hlog, nth_error_map, H. reflexivity. }
    rewrite (Hnth k fx Hk) in H. injection H as H.
    unfold stateBefore. exact (proj1 (processFix_NotFound host _ fx) H).
  - intros Hgone.
    assert (Hk : nth_error (sortFixes fixes) k = Some fx).
    { rewrite <- Hlog, nth_error_map, H. reflexivity. }
    rewrite (Hnth k fx Hk) in H. injection H as H.
    rewrite <- H. unfold stateBefore in Hgone.
    exact (proj2 (processFix_NotFound host _ fx) Hgone).
Qed.

(** C1, which the code breaks: two proposals anchored on the one [foo()]
    of the document, their spans in the document before the batch both
    [0..5], are both applied by one call.  The range recorded for the first
    is in the offsets of the text before its edit; the second is resolved
    in the text after it, where the anchor has moved to [8..13]. *)
Theorem overlapping_anchors_both_applied :
  let doc := str "foo()" in
  let p1 := proposal "fix_0" "foo()" "wrapper(foo())" 1 1 in
  let p2 := proposal "fix_1" "foo()" "guarded(foo())" 1 1 in
  anchorSpan doc p1 = Some (mkRange 0 5)
  /\ anchorSpan doc p2 = Some (mkRange 0 5)
  /\ spansIntersect (mkRange 0 5) (mkRange 0 5) = true
  /\ applyAllFixes (Some YesApplyAll) acceptAll (openEditor doc) [p1; p2]
     = Ran (mkBatch (mkEditor (str "wrapper(guarded(foo()))") 2) 2 0 0
              [mkRange 0 5; mkRange 8 13])
           [(p1, Applied); (p2, Applied)].
Proof. vm_compute. repeat split. Qed.

(** C4, which the code breaks: [indexOf] finds the empty anchor at offset
    0 of any document, so a batch of one proposal with an empty anchor,
    once the host accepts the edit, is counted as applied and puts the
    replacement in front of the document. *)
Theorem empty_anchor_inserted_at_start (host : nat -> edit_reply) (t : text)
    (fx : SuggestedFix) :
  originalCode fx = [] -> host 0%nat = Accepted ->
  applyAllFixes (Some YesApplyAll) host (openEditor t) [fx]
  = Ran (mkBatch (mkEditor (fixedCode fx ++ t) 1) 1 0 0 [mkRange 0 0])
        [(fx, Applied)].
Proof.
  intros Ho Hh. unfold applyAllFixes. cbn [sortFixes insertFix processAll].
  unfold processFix, editor_edit.
  cbn [editor document openEditor initialBatch editsRequested modifiedRanges
       appliedCount failedCount skippedCount].
  rewrite Ho, indexOf_empty, Hh. reflexivity.
Qed.

Lemma empty_anchor_inserted_at_start_witness :
  applyAllFixes (Some YesApplyAll) acceptAll
    (openEditor (str "first" ++ LF :: str "second"))
    [proposal "fix_0" EmptyString "X" 2 2]
  = Ran (mkBatch (mkEditor (str "Xfirst" ++ LF :: str "second") 1) 1 0 0
           [mkRange 0 0])
        [(proposal "fix_0" EmptyString "X" 2 2, Applied)].
Proof.
  exact (empty_anchor_inserted_at_start acceptAll
           (str "first" ++ LF :: str "second") (proposal "fix_0" EmptyString "X" 2 2)
           eq_refl eq_refl).
Defined.

(** C5, as the specification has it, fails: the replacement [await foo()]
    still holds the anchor [foo()], so the second run on the document the
    first run left finds it and applies the proposal again. *)
Lemma second_run_applies_again :
  applyAllFixes (Some YesApplyAll) acceptAll (openEditor (str "foo();"))
    [proposal "fix_0" "foo()" "await foo()" 1 1]
  = Ran (mkBatch (mkEditor (str "await foo();") 1) 1 0 0 [mkRange 0 5])
        [(proposal "fix_0" "foo()" "await foo()" 1 1, Applied)]
  /\ applyAllFixes (Some YesApplyAll) acceptAll (mkEditor (str "await foo();") 1)
       [proposal "fix_0" "foo()" "await foo()" 1 1]
     = Ran (mkBatch (mkEditor (str "await await foo();") 2) 1 0 0 [mkRange 6 11])
           [(proposal "fix_0" "foo()" "await foo()" 1 1, Applied)].
Proof. split; vm_compute; reflexivity. Qed.

(** ** The line fallback of applySingleFix *)

(** C8, as the specification has it, fails: in a document of two lines the
    fallback for [lineStart = 100] starts at line 99 and ends at line 100,
    neither of which the document has; and for [lineEnd = -3] the end
    position cannot be made, so that [applySingleFix] ends by the exception
    of the constructor, before any dialog. *)
Lemma fallback_range_not_clamped_to_document :
  lineCount (str "a" ++ LF :: str "b") = 2
  /\ applySingleFix (Some YesApply) (str "a" ++ LF :: str "b")
       (proposal "fix_0" "zzz" "X" 100 100)
     = Request (ReplaceLines (mkPosition 99 0) (mkPosition 100 0) (str "X" ++ [LF]))
  /\ validLine (str "a" ++ LF :: str "b") 99 = false
  /\ applySingleFix (Some YesApply) (str "a" ++ LF :: str "b")
       (proposal "fix_1" "zzz" "X" 1 (-3))
     = IllegalArgument.
Proof. repeat split. Qed.

(** C8, amended: for a proposal whose anchor is not in the document and
    whose [lineEnd] is not negative, the confirmed line fallback yields a
    request, to replace from column 0 of line [max 0 (lineStart - 1)] to
    column 0 of line [lineEnd].  Only the start line is clamped, and only
    at zero: a [lineStart] of 1 or more gives line [lineStart - 1] and the
    end line is [lineEnd], whatever the line count of the document. *)
Theorem fallback_clamps_start_line_at_zero_only (t : text) (fx : SuggestedFix) :
  indexOf t (originalCode fx) = -1 ->
  0 <= lineEnd fx ->
  exists startPos endPos,
    applySingleFix (Some YesApply) t fx
    = Request (ReplaceLines startPos endPos (fixedCode fx ++ [LF]))
    /\ 0 <= line startPos
    /\ (1 <= lineStart fx -> line startPos = lineStart fx - 1)
    /\ (lineStart fx < 1 -> line startPos = 0)
    /\ line endPos = lineEnd fx
    /\ character startPos = 0
    /\ character endPos = 0.
Proof.
  intros H Hend. unfold applySingleFix, fallbackRange, newPosition. rewrite H.
  replace (Z.max 0 (lineStart fx - 1) <? 0) with false
    by (symmetry; apply Z.ltb_ge; lia).
  replace (lineEnd fx <? 0) with false by (symmetry; apply Z.ltb_ge; lia).
  eexists _, _. split; [reflexivity|]. simpl. repeat split; lia.
Qed.

Lemma fallback_clamps_start_line_at_zero_only_witness :
  exists startPos endPos,
    applySingleFix (Some YesApply) (str "a" ++ LF :: str "b")
      (proposal "fix_0" "zzz" "X" (-4) 7)
    = Request (ReplaceLines startPos endPos (str "X" ++ [LF]))
    /\ 0 <= line startPos
    /\ (1 <= -4 -> line startPos = -4 - 1)
    /\ (-4 < 1 -> line startPos = 0)
    /\ line endPos = 7
    /\ character startPos = 0
    /\ character endPos = 0.
Proof.
  refine (fallback_clamps_start_line_at_zero_only (str "a" ++ LF :: str "b")
            (proposal "fix_0" "zzz" "X" (-4) 7) eq_refl _).
  discriminate.
Defined.

(** ** The proposals made from the response *)

Module AnalyzeFacts.
Import Analyze.

Lemma orElse_keptOrDefault (v d : value) : keptOrDefault v d (orElse v d).
Proof. unfold keptOrDefault, orElse. destruct (truthy v); auto. Qed.

(** A member that the object does not have reads as [undefined]. *)
Lemma lookup_absent (k : string) (fields : list (string * value)) :
  ~ In k (map fst fields) -> lookup k fields = VUndefined.
Proof.
  induction fields as [|[k' v] fields IH]; intros H; simpl; [reflexivity|].
  rewrite IH by (intros Hin; apply H; now right).
  destruct (String.eqb k k') eqn:E; [|reflexivity].
  apply String.eqb_eq in E. subst k'. exfalso. apply H. now left.
Qed.

(** A field that is absent gets its default. *)
Lemma orElse_undefined (d : value) : orElse VUndefined d = d.
Proof. reflexivity. Qed.

Lemma convertFix_returns (v : value) (index : nat) :
  isNullish v = false ->
  exists r, convertFix v index = Returned r /\ convertedFrom v index r.
Proof.
  intros H. unfold convertFix.
  destruct v; try discriminate H; simpl;
    (eexists; split; [reflexivity|]);
    unfold convertedFrom; simpl; repeat split; apply orElse_keptOrDefault.
Qed.

(** [null] among the proposals makes the callback throw. *)
Lemma convertFix_null (index : nat) : convertFix VNull index = TypeError.
Proof. reflexivity. Qed.

Lemma mapFixes_returns (items : list value) (index : nat) :
  forallb (fun v => negb (isNullish v)) items = true ->
  exists fs,
    mapFixes items index = Returned fs
    /\ length fs = length items
    /\ forall k v r,
         nth_error items k = Some v -> nth_error fs k = Some r ->
         convertedFrom v (index + k) r.
Proof.
  revert index; induction items as [|v items IH]; intros index H; simpl.
  - exists []. split; [reflexivity|]. split; [reflexivity|].
    intros [|k] ? ? ?; discriminate.
  - simpl in H. apply andb_true_iff in H as [Hv Hitems].
    apply negb_true_iff in Hv.
    destruct (convertFix_returns v index Hv) as (r & -> & Hr).
    destruct (IH (S index) Hitems) as (fs & -> & Hlen & Hnth).
    exists (r :: fs). split; [reflexivity|].
    split; [simpl; now rewrite Hlen|].
    intros [|k] v' r' Hv' Hr'; simpl in *.
    + injection Hv' as <-. injection Hr' as <-.
      now rewrite Nat.add_0_r.
    + rewrite Nat.add_succ_r. exact (Hnth k v' r' Hv' Hr').
Qed.

(** C9, as the specification has it, fails: a field that is there with the
    wrong shape is truthy and is kept.  Here the anchor is a number, the
    replacement an array, the start line a string and the severity a
    boolean, in the proposal as in the response. *)
Lemma wrong_shape_is_kept :
  convertFix
    (VObj [("originalCode"%string, VNum 5);
           ("fixedCode"%string, VArr [VStr "a"; VStr "b"]);
           ("lineStart"%string, VStr "three");
           ("severity"%string, VBool true)]) 0
  = Returned (mkFix (VStr "fix_0") (VStr "No description") (VNum 5)
                (VArr [VStr "a"; VStr "b"]) (VStr "three") (VNum 1)
                (VBool true) (VStr "style"))
  /\ isString (VNum 5) = false
  /\ isString (VArr [VStr "a"; VStr "b"]) = false
  /\ isNumber (VStr "three") = false.
Proof. repeat split. Qed.

(** C9, amended: when the response has an array of proposals none of which
    is [null], the conversion raises nothing and makes one proposal for
    each element; each field is the element's own when that is truthy,
    whatever its shape, and when it is absent or falsy the default: the
    empty string for [originalCode] and [fixedCode], 1 for [lineStart] and
    [lineEnd], [info] for [severity], [style] for [type], [No description]
    for [description] and [fix_] followed by the index for [id]. *)
Theorem absent_or_falsy_fields_get_defaults (parsed : value) (items : list value) :
  getProp parsed "fixes" = Returned (VArr items) ->
  forallb (fun v => negb (isNullish v)) items = true ->
  exists fs,
    convertFixes parsed = Returned fs
    /\ length fs = length items
    /\ forall k v r,
         nth_error items k = Some v -> nth_error fs k = Some r ->
         convertedFrom v k r.
Proof.
  intros Hp Hitems. unfold convertFixes. rewrite Hp.
  change (orElse (VArr items) (VArr [])) with (VArr items).
  exact (mapFixes_returns items 0 Hitems).
Qed.

Lemma absent_or_falsy_fields_get_defaults_witness :
  exists fs,
    convertFixes
      (VObj [("fixes"%string,
              VArr [VObj [("originalCode"%string, VStr "eval(input)");
                          ("lineStart"%string, VNum 0)];
                    VNum 3])])
    = Returned fs
    /\ length fs = 2%nat
    /\ forall k v r,
         nth_error [VObj [("originalCode"%string, VStr "eval(input)");
                          ("lineStart"%string, VNum 0)];
                    VNum 3] k = Some v ->
         nth_error fs k = Some r ->
         convertedFrom v k r.
Proof.
  exact (absent_or_falsy_fields_get_defaults
           (VObj [("fixes"%string,
                   VArr [VObj [("originalCode"%string, VStr "eval(input)");
                               ("lineStart"%string, VNum 0)];
                         VNum 3])])
           [VObj [("originalCode"%string, VStr "eval(input)");
                  ("lineStart"%string, VNum 0)];
            VNum 3]
           eq_refl eq_refl).
Defined.

(** What the conversion makes of that response. *)
Example defaults_filled_in :
  convertFixes
    (VObj [("fixes"%string,
            VArr [VObj [("originalCode"%string, VStr "eval(input)");
                        ("lineStart"%string, VNum 0)];
                  VNum 3])])
  = Returned
      [mkFix (VStr "fix_0") (VStr "No description") (VStr "eval(input)")
         (VStr EmptyString) (VNum 1) (VNum 1) (VStr "info") (VStr "style");
       mkFix (VStr "fix_1") (VStr "No description") (VStr EmptyString) (VStr EmptyString)
         (VNum 1) (VNum 1) (VStr "info") (VStr "style")].
Proof. reflexivity. Qed.

End AnalyzeFacts.

(** ** One iteration and the document *)

Section Iteration.

Variable host : nat -> edit_reply.

(** An iteration that does not end in an accepted edit leaves the document,
    the recorded ranges and [appliedCount] as they were. *)
Lemma processFix_not_applied (st : batch_state) (fx : SuggestedFix) :
  snd (processFix host st fx) <> Applied ->
  document (editor (fst (processFix host st fx))) = document (editor st)
  /\ modifiedRanges (fst (processFix host st fx)) = modifiedRanges st
  /\ appliedCount (fst (processFix host st fx)) = appliedCount st.
Proof.
  unfold processFix, editor_edit.
  destruct (indexOf _ _ =? -1); [now simpl|].
  destruct (overlapsAny _ _ _); [now simpl|].
  destruct (host _); simpl; intros H; [congruence | auto | auto].
Qed.

(** What an accepted edit has done. *)
Lemma processFix_applied (st st' : batch_state) (fx : SuggestedFix) :
  processFix host st fx = (st', Applied) ->
  indexOf (document (editor st)) (originalCode fx) <> -1
  /\ overlapsAny (indexOf (document (editor st)) (originalCode fx))
       (indexOf (document (editor st)) (originalCode fx) + len (originalCode fx))
       (modifiedRanges st) = false
  /\ st' = mkBatch
       (mkEditor
          (replaceRange (document (editor st))
             (indexOf (document (editor st)) (originalCode fx))
             (indexOf (document (editor st)) (originalCode fx)
              + len (originalCode fx))
             (fixedCode fx))
          (S (editsRequested (editor st))))
       (S (appliedCount st)) (failedCount st) (skippedCount st)
       (modifiedRanges st
        ++ [mkRange (indexOf (document (editor st)) (originalCode fx))
              (indexOf (document (editor st)) (originalCode fx)
               + len (originalCode fx))]).
Proof.
  unfold processFix, editor_edit.
  destruct (indexOf _ _ =? -1) eqn:E; [discriminate|].
  apply Z.eqb_neq in E.
  destruct (overlapsAny _ _ _) eqn:O; [discriminate|].
  destruct (host _) eqn:Hh; try discriminate.
  intros H. injection H as <-. auto.
Qed.

(** How often the host was asked, by the way the iteration ended. *)
Lemma processFix_editsRequested (st : batch_state) (fx : SuggestedFix) :
  editsRequested (editor (fst (processFix host st fx)))
  = (editsRequested (editor st)
     + match snd (processFix host st fx) with
       | Applied | HostRefused | Raised => 1
       | NotFound | SkippedOverlap => 0
       end)%nat.
Proof.
  unfold processFix, editor_edit.
  destruct (indexOf _ _ =? -1); [simpl; lia|].
  destruct (overlapsAny _ _ _); [simpl; lia|].
  destruct (host _); simpl; lia.
Qed.

End Iteration.

Lemma processAll_cons (host : nat -> edit_reply) (st : batch_state)
    (fx : SuggestedFix) (l : list SuggestedFix) :
  processAll host st (fx :: l)
  = (fst (processAll host (fst (processFix host st fx)) l),
     (fx, snd (processFix host st fx))
     :: snd (processAll host (fst (processFix host st fx)) l)).
Proof.
  simpl. destruct (processFix host st fx) as [st1 o]. simpl.
  now destruct (processAll host st1 l).
Qed.

(** X1: an iteration that ends in an accepted edit has put [fixedCode] in
    the place of the first occurrence of [originalCode], leaving the text
    before and after it, and has recorded the offsets of that occurrence. *)
Theorem applied_fix_rewrites_first_occurrence (host : nat -> edit_reply)
    (st st' : batch_state) (fx : SuggestedFix) :
  processFix host st fx = (st', Applied) ->
  exists pre post,
    document (editor st) = pre ++ originalCode fx ++ post
    /\ document (editor st') = pre ++ fixedCode fx ++ post
    /\ (forall k, (k < length pre)%nat ->
          startsWith (skipn k (document (editor st))) (originalCode fx) = false)
    /\ modifiedRanges st'
       = modifiedRanges st ++ [mkRange (len pre) (len pre + len (originalCode fx))].
Proof.
  intros H. apply processFix_applied in H as (Hfound & _ & ->).
  destruct (indexOfFrom_found (document (editor st)) (originalCode fx) 0 _
              ltac:(lia) eq_refl Hfound) as (pre & post & Ht & Hr & Hfirst).
  assert (Hi : indexOf (document (editor st)) (originalCode fx) = len pre)
    by (unfold indexOf; lia).
  exists pre, post. cbn [editor document modifiedRanges]. rewrite Hi.
  split; [exact Ht|]. split; [|split; [exact Hfirst | reflexivity]].
  rewrite Ht at 1. apply replaceRange_anchor.
Qed.

Lemma applied_fix_rewrites_first_occurrence_witness :
  exists pre post,
    evalDocument = pre ++ str "eval(input)" ++ post
    /\ parseDocument = pre ++ str "JSON.parse(input)" ++ post
    /\ (forall k, (k < length pre)%nat ->
          startsWith (skipn k evalDocument) (str "eval(input)") = false)
    /\ [mkRange 8 19] = [] ++ [mkRange (len pre) (len pre + len (str "eval(input)"))].
Proof.
  exact (applied_fix_rewrites_first_occurrence acceptAll
           (initialBatch (openEditor evalDocument))
           (mkBatch (mkEditor parseDocument 1) 1 0 0 [mkRange 8 19])
           (proposal "fix_0" "eval(input)" "JSON.parse(input)" 1 1) eq_refl).
Defined.

(** ** The loop and the document *)

Section Batch.

Variable host : nat -> edit_reply.

Lemma processAll_applied_mono (st : batch_state) (l : list SuggestedFix) :
  (appliedCount st <= appliedCount (fst (processAll host st l)))%nat.
Proof.
  pose proof (processAll_counters host st l) as H.
  destruct (processAll host st l) as [st' log]. simpl. lia.
Qed.

Lemma processFix_applied_step (st : batch_state) (fx : SuggestedFix) :
  appliedCount (fst (processFix host st fx))
  = (appliedCount st
     + if outcome_eqb (snd (processFix host st fx)) Applied then 1 else 0)%nat.
Proof.
  pose proof (processFix_counters host st fx) as H.
  destruct (processFix host st fx) as [st1 o]. simpl.
  destruct o; simpl in H; injection H as H1 H2 H3; simpl; lia.
Qed.

Lemma processAll_nothing_applied (st : batch_state) (l : list SuggestedFix) :
  appliedCount (fst (processAll host st l)) = appliedCount st ->
  document (editor (fst (processAll host st l))) = document (editor st)
  /\ modifiedRanges (fst (processAll host st l)) = modifiedRanges st.
Proof.
  revert st; induction l as [|fx l IH]; intros st H; [now simpl|].
  rewrite processAll_cons in *. cbn [fst] in *.
  pose proof (processAll_applied_mono (fst (processFix host st fx)) l) as Hm.
  pose proof (processFix_applied_step st fx) as Hs.
  destruct (snd (processFix host st fx)) eqn:E; simpl in Hs; try lia;
    (destruct (processFix_not_applied host st fx) as (Hd & Hr & Ha);
     [rewrite E; discriminate|];
     destruct (IH (fst (processFix host st fx)) ltac:(lia)) as (Hd' & Hr');
     split; congruence).
Qed.

Lemma processAll_editsRequested (st : batch_state) (l : list SuggestedFix) :
  editsRequested (editor (fst (processAll host st l)))
  = (editsRequested (editor st) + hostCalls (snd (processAll host st l)))%nat.
Proof.
  revert st; induction l as [|fx l IH]; intros st.
  - simpl. unfold hostCalls, countOutcome. simpl. lia.
  - rewrite processAll_cons. cbn [fst snd]. rewrite IH.
    rewrite processFix_editsRequested.
    unfold hostCalls. rewrite !countOutcome_cons.
    destruct (snd (processFix host st fx)); simpl; lia.
Qed.

Lemma hostCalls_le (st : batch_state) (l : list SuggestedFix) :
  (hostCalls (snd (processAll host st l)) <= length l)%nat.
Proof.
  pose proof (processAll_counters host st l) as Hc.
  pose proof (processAll_total host st l) as Ht.
  destruct (processAll host st l) as [st' log]. simpl in *.
  unfold hostCalls. lia.
Qed.

Lemma indexOf_nonneg (t p : text) : indexOf t p <> -1 -> 0 <= indexOf t p.
Proof.
  intros H. destruct (indexOfFrom_bounds t p 0) as [E|E]; [contradiction|].
  unfold indexOf. lia.
Qed.

Lemma overlapsAny_false (s e : Z) (rs : list range) :
  overlapsAny s e rs = false ->
  Forall (fun r => clearOf r (mkRange s e)) rs.
Proof.
  unfold overlapsAny, clearOf. simpl.
  induction rs as [|r rs IH]; simpl; intros H; [constructor|].
  apply orb_false_iff in H as [H1 H2]. constructor; auto.
Qed.

Lemma ForallOrdPairs_snoc (A : Type) (R : A -> A -> Prop) (l : list A) (y : A) :
  ForallOrdPairs R l -> Forall (fun x => R x y) l ->
  ForallOrdPairs R (l ++ [y]).
Proof.
  induction 1 as [|x l Hx Hl IH]; intros Hy; simpl.
  - constructor; constructor.
  - inversion Hy as [|? ? Hxy Hly]; subst.
    constructor; [|now apply IH].
    apply Forall_app. split; [exact Hx | now constructor].
Qed.

Lemma processFix_rangesKept (st : batch_state) (fx : SuggestedFix) :
  rangesKept st -> rangesKept (fst (processFix host st fx)).
Proof.
  intros [Hw Hc].
  destruct (processFix host st fx) as [st1 o] eqn:E.
  destruct o;
    try (destruct (processFix_not_applied host st fx) as (_ & Hr & _);
         [rewrite E; discriminate|]; rewrite E in Hr; simpl in *;
         unfold rangesKept; rewrite Hr; now split).
  apply processFix_applied in E as (Hfound & Hclear & ->).
  unfold rangesKept. simpl. split.
  - apply Forall_app. split; [exact Hw|]. constructor; [|constructor].
    unfold wellFormedRange, len. simpl.
    pose proof (indexOf_nonneg _ _ Hfound). lia.
  - apply ForallOrdPairs_snoc; [exact Hc|].
    now apply overlapsAny_false.
Qed.

Lemma processAll_rangesKept (st : batch_state) (l : list SuggestedFix) :
  rangesKept st -> rangesKept (fst (processAll host st l)).
Proof.
  revert st; induction l as [|fx l IH]; intros st H; [exact H|].
  rewrite processAll_cons. cbn [fst]. apply IH.
  now apply processFix_rangesKept.
Qed.

Lemma processFix_ranges_length (st : batch_state) (fx : SuggestedFix) :
  (length (modifiedRanges (fst (processFix host st fx))) + appliedCount st
   = length (modifiedRanges st) + appliedCount (fst (processFix host st fx)))%nat.
Proof.
  unfold processFix, editor_edit.
  destruct (indexOf _ _ =? -1); [simpl; lia|].
  destruct (overlapsAny _ _ _); [simpl; lia|].
  destruct (host _); simpl; rewrite ?length_app; simpl; lia.
Qed.

Lemma processAll_ranges_length (st : batch_state) (l : list SuggestedFix) :
  (length (modifiedRanges (fst (processAll host st l))) + appliedCount st
   = length (modifiedRanges st) + appliedCount (fst (processAll host st l)))%nat.
Proof.
  revert st; induction l as [|fx l IH]; intros st; [simpl; lia|].
  rewrite processAll_cons. cbn [fst].
  pose proof (IH (fst (processFix host st fx))).
  pose proof (processFix_ranges_length st fx). lia.
Qed.

Lemma processFix_applied_document (st st' : batch_state)
    (fx : SuggestedFix) :
  processFix host st fx = (st', Applied) ->
  exists pre post,
    document (editor st) = pre ++ originalCode fx ++ post
    /\ document (editor st') = pre ++ fixedCode fx ++ post.
Proof.
  intros H. apply processFix_applied in H as (Hfound & _ & ->).
  destruct (indexOf_found _ _ Hfound) as (pre & post & Ht & Hi).
  exists pre, post. cbn [editor document]. rewrite Hi.
  split; [exact Ht|]. rewrite Ht at 1. apply replaceRange_anchor.
Qed.

Lemma len_app (a b : text) : len (a ++ b) = len a + len b.
Proof. unfold len. rewrite length_app. lia. Qed.

Lemma processFix_length (st : batch_state) (fx : SuggestedFix) :
  len (document (editor (fst (processFix host st fx))))
  = len (document (editor st))
    + lengthDelta [(fx, snd (processFix host st fx))].
Proof.
  destruct (processFix host st fx) as [st1 o] eqn:E.
  destruct o;
    try (destruct (processFix_not_applied host st fx) as (Hd & _ & _);
         [rewrite E; discriminate|]; rewrite E in Hd; simpl in *;
         rewrite Hd; lia).
  destruct (processFix_applied_document st st1 fx E)
    as (pre & post & Ht & Ht').
  simpl. rewrite Ht, Ht', !len_app. lia.
Qed.

End Batch.

Lemma processAll_length (host : nat -> edit_reply) (st : batch_state)
    (l : list SuggestedFix) :
  len (document (editor (fst (processAll host st l))))
  = len (document (editor st)) + lengthDelta (snd (processAll host st l)).
Proof.
  revert st; induction l as [|fx l IH]; intros st; [simpl; lia|].
  rewrite processAll_cons. cbn [fst snd]. rewrite IH.
  pose proof (processFix_length host st fx) as H.
  cbn [lengthDelta] in *.
  destruct (snd (processFix host st fx)); lia.
Qed.

Lemma atLine_insertFix (k : Z) (a : SuggestedFix) (l : list SuggestedFix) :
  atLine k (insertFix a l) = atLine k (a :: l).
Proof.
  induction l as [|b l IH]; [reflexivity|].
  cbn [insertFix]. unfold compareFn.
  destruct (lineStart a - lineStart b <? 0) eqn:E; [|reflexivity].
  apply Z.ltb_lt in E.
  unfold atLine in *. cbn [filter] in *. rewrite IH.
  destruct (lineStart b =? k) eqn:Eb, (lineStart a =? k) eqn:Ea;
    try reflexivity.
  apply Z.eqb_eq in Eb, Ea. lia.
Qed.

Lemma atLine_sortFixes (k : Z) (l : list SuggestedFix) :
  atLine k (sortFixes l) = atLine k l.
Proof.
  induction l as [|a l IH]; [reflexivity|].
  cbn [sortFixes]. rewrite atLine_insertFix.
  unfold atLine in *. cbn [filter]. now rewrite IH.
Qed.

(** X2: a batch that counts no applied fix has left the document as it
    was and has recorded no range, whatever the host answered. *)
Theorem nothing_applied_document_unchanged (host : nat -> edit_reply)
    (ed : editor_state) (fixes : list SuggestedFix)
    (st : batch_state) (log : list (SuggestedFix * outcome)) :
  applyAllFixes (Some YesApplyAll) host ed fixes = Ran st log ->
  appliedCount st = 0%nat ->
  document (editor st) = document ed /\ modifiedRanges st = [].
Proof.
  rewrite applyAllFixes_ran. intros H H0. injection H as <- _.
  exact (processAll_nothing_applied host (initialBatch ed) (sortFixes fixes) H0).
Qed.

Lemma nothing_applied_document_unchanged_witness :
  document (editor (mkBatch (mkEditor (str "a();") 1) 0 1 0 [])) = str "a();"
  /\ modifiedRanges (mkBatch (mkEditor (str "a();") 1) 0 1 0 []) = [].
Proof.
  exact (nothing_applied_document_unchanged (fun _ => Refused)
           (openEditor (str "a();")) [proposal "fix_0" "a()" "b()" 1 1]
           (mkBatch (mkEditor (str "a();") 1) 0 1 0 [])
           [(proposal "fix_0" "a()" "b()" 1 1, HostRefused)]
           eq_refl eq_refl).
Defined.

(** X3: the host is asked for an edit only in the iterations that end in
    an applied fix, a refused edit or an exception, once in each: never for
    a proposal that was not found or was skipped, and so at most once for
    each proposal of the batch. *)
Theorem host_asked_once_per_attempt (host : nat -> edit_reply)
    (ed : editor_state) (fixes : list SuggestedFix) :
  exists st log,
    applyAllFixes (Some YesApplyAll) host ed fixes = Ran st log
    /\ editsRequested (editor st) = (editsRequested ed + hostCalls log)%nat
    /\ (hostCalls log <= length fixes)%nat.
Proof.
  eexists _, _. split; [apply applyAllFixes_ran|]. split.
  - apply (processAll_editsRequested host (initialBatch ed)).
  - rewrite <- (sortFixes_length fixes). apply hostCalls_le.
Qed.

(** X4: when the loop ends there is one recorded range for each applied
    fix; every recorded range starts at an offset that is not negative and
    ends no earlier than it starts; and the test of the loop finds every
    recorded range clear of those recorded before it. *)
Theorem recorded_ranges_clear_of_each_other (host : nat -> edit_reply)
    (ed : editor_state) (fixes : list SuggestedFix) :
  exists st log,
    applyAllFixes (Some YesApplyAll) host ed fixes = Ran st log
    /\ length (modifiedRanges st) = appliedCount st
    /\ Forall wellFormedRange (modifiedRanges st)
    /\ ForallOrdPairs clearOf (modifiedRanges st).
Proof.
  eexists _, _. split; [apply applyAllFixes_ran|]. split.
  - pose proof (processAll_ranges_length host (initialBatch ed) (sortFixes fixes)) as H.
    simpl in H. lia.
  - apply (processAll_rangesKept host (initialBatch ed)).
    split; constructor.
Qed.

(** X5: the length of the document after the batch is its length before
    plus, for each applied fix, the length of [fixedCode] less the length
    of [originalCode]; nothing else changes the length. *)
Theorem document_length_after_batch (host : nat -> edit_reply)
    (ed : editor_state) (fixes : list SuggestedFix) :
  exists st log,
    applyAllFixes (Some YesApplyAll) host ed fixes = Ran st log
    /\ len (document (editor st)) = len (document ed) + lengthDelta log.
Proof.
  eexists _, _. split; [apply applyAllFixes_ran|].
  apply (processAll_length host (initialBatch ed)).
Qed.

(** X6: proposals with the same [lineStart] are run in the order in which
    the batch was given: for each line number, the fixes of the log with
    that [lineStart] are those of the batch, in the same order. *)
Theorem equal_lineStart_keep_their_order (host : nat -> edit_reply)
    (ed : editor_state) (fixes : list SuggestedFix) :
  exists st log,
    applyAllFixes (Some YesApplyAll) host ed fixes = Ran st log
    /\ forall k, atLine k (map fst log) = atLine k fixes.
Proof.
  eexists _, _. split; [apply applyAllFixes_ran|].
  intros k. rewrite processAll_log. apply atLine_sortFixes.
Qed.

(** X7: for two spans that each hold a character, the test of the loop
    says that they overlap exactly when some offset lies in both. *)
Theorem overlap_test_is_shared_offset (s e : Z) (r : range) :
  s < e -> range_start r < range_end r ->
  (overlapsRange s e r = true
   <-> exists x, s <= x < e /\ range_start r <= x < range_end r).
Proof.
  intros Hs Hr. rewrite (overlapsRange_nonempty s e r Hs Hr).
  unfold spansIntersect. simpl. rewrite Z.ltb_lt. split.
  - intros H. exists (Z.max s (range_start r)). lia.
  - intros [x Hx]. lia.
Qed.

Lemma overlap_test_is_shared_offset_witness :
  overlapsRange 3 8 (mkRange 0 5) = true
  <-> exists x, 3 <= x < 8 /\ 0 <= x < 5.
Proof.
  exact (overlap_test_is_shared_offset 3 8 (mkRange 0 5) eq_refl eq_refl).
Defined.

(** ** applySingleFix *)

(** X8: [applySingleFix] asks for the replacement of a range of lines only
    when the user answered [Yes, Apply] and the anchor occurs nowhere in
    the document; the text it then sends is [fixedCode] followed by a line
    feed, for the lines of [fallbackRange]. *)
Theorem line_fallback_only_without_anchor (confirm : option single_choice)
    (t : text) (fx : SuggestedFix) (startPos endPos : Position) (s : text) :
  applySingleFix confirm t fx = Request (ReplaceLines startPos endPos s) ->
  confirm = Some YesApply
  /\ (forall pre post, t <> pre ++ originalCode fx ++ post)
  /\ fallbackRange fx = Some (startPos, endPos)
  /\ s = fixedCode fx ++ [LF].
Proof.
  unfold applySingleFix.
  destruct (indexOf t (originalCode fx) =? -1) eqn:E.
  - apply Z.eqb_eq in E.
    destruct (fallbackRange fx) as [[sp ep]|]; [|discriminate].
    destruct confirm as [[| |]|]; try discriminate.
    intros H. injection H as <- <- <-.
    repeat split. now apply indexOf_absent.
  - destruct confirm as [[| |]|]; discriminate.
Qed.

Lemma line_fallback_only_without_anchor_witness :
  Some YesApply = Some YesApply
  /\ (forall pre post, str "a();" <> pre ++ str "zzz" ++ post)
  /\ fallbackRange (proposal "fix_0" "zzz" "X" 3 3)
     = Some (mkPosition 2 0, mkPosition 3 0)
  /\ str "X" ++ [LF] = str "X" ++ [LF].
Proof.
  exact (line_fallback_only_without_anchor (Some YesApply) (str "a();")
           (proposal "fix_0" "zzz" "X" 3 3) (mkPosition 2 0) (mkPosition 3 0)
           (str "X" ++ [LF]) eq_refl).
Defined.

(** X9: [applySingleFix] asks for the replacement of a range of offsets
    only when the user answered [Yes, Apply]; the range is then the first
    occurrence of the anchor, and the edit, once done, puts [fixedCode] in
    its place and leaves the text before and after it. *)
Theorem single_fix_rewrites_first_occurrence (confirm : option single_choice)
    (t : text) (fx : SuggestedFix) (s e : Z) (r : text) :
  applySingleFix confirm t fx = Request (ReplaceOffsets s e r) ->
  confirm = Some YesApply
  /\ exists pre post,
       t = pre ++ originalCode fx ++ post
       /\ s = len pre /\ e = len pre + len (originalCode fx)
       /\ replaceRange t s e r = pre ++ fixedCode fx ++ post
       /\ forall k, (k < length pre)%nat ->
            startsWith (skipn k t) (originalCode fx) = false.
Proof.
  unfold applySingleFix.
  destruct (indexOf t (originalCode fx) =? -1) eqn:E.
  - destruct (fallbackRange fx) as [[sp ep]|]; [|discriminate].
    destruct confirm as [[| |]|]; discriminate.
  - apply Z.eqb_neq in E.
    destruct confirm as [[| |]|]; try discriminate.
    intros H. injection H as <- <- <-. split; [reflexivity|].
    destruct (indexOfFrom_found t (originalCode fx) 0 _ ltac:(lia) eq_refl E)
      as (pre & post & Ht & Hr & Hfirst).
    assert (Hi : indexOf t (originalCode fx) = len pre)
      by (unfold indexOf; lia).
    exists pre, post. rewrite Hi.
    split; [exact Ht|]. split; [reflexivity|]. split; [reflexivity|].
    split; [|exact Hfirst].
    rewrite Ht at 1. apply replaceRange_anchor.
Qed.

Lemma single_fix_rewrites_first_occurrence_witness :
  Some YesApply = Some YesApply
  /\ exists pre post,
       evalDocument = pre ++ str "eval(input)" ++ post
       /\ 8 = len pre /\ 19 = len pre + len (str "eval(input)")
       /\ replaceRange evalDocument 8 19 (str "JSON.parse(input)")
          = pre ++ str "JSON.parse(input)" ++ post
       /\ forall k, (k < length pre)%nat ->
            startsWith (skipn k evalDocument) (str "eval(input)") = false.
Proof.
  exact (single_fix_rewrites_first_occurrence (Some YesApply) evalDocument
           (proposal "fix_0" "eval(input)" "JSON.parse(input)" 1 1)
           8 19 (str "JSON.parse(input)") eq_refl).
Defined.

(** ** escapeHtml *)

Lemma escapeChar_plain (c : ascii) : isSpecial c = false -> escapeChar c = [c].
Proof.
  unfold isSpecial, escapeChar. intros H.
  repeat (apply orb_false_iff in H as [H ?]).
  now repeat match goal with E : Ascii.eqb _ _ = false |- _ => rewrite E; clear E end.
Qed.

Lemma isSpecial_cases (c : ascii) :
  isSpecial c = true ->
  c = "&"%char \/ c = "<"%char \/ c = ">"%char \/ c = doubleQuote \/ c = "'"%char.
Proof.
  unfold isSpecial. intros H.
  repeat (apply orb_true_iff in H as [H|H]);
    apply Ascii.eqb_eq in H; auto 6.
Qed.

Lemma escapeChar_markup (c : ascii) :
  forallb (fun d => negb (isMarkup d)) (escapeChar c) = true.
Proof.
  destruct (isSpecial c) eqn:E.
  - apply isSpecial_cases in E as [ -> | [ -> | [ -> | [ -> | -> ]]]]; reflexivity.
  - rewrite (escapeChar_plain c E). simpl. rewrite andb_true_r.
    unfold isSpecial in E. unfold isMarkup.
    repeat (apply orb_false_iff in E as [E ?]).
    now repeat match goal with H : Ascii.eqb _ _ = false |- _ => rewrite H; clear H end.
Qed.

(** What an escaped character starts with tells the character. *)
Lemma escapeChar_inj (a b : ascii) (x y : text) :
  escapeChar a ++ x = escapeChar b ++ y -> a = b /\ x = y.
Proof.
  destruct (isSpecial a) eqn:Ea, (isSpecial b) eqn:Eb.
  - apply isSpecial_cases in Ea as [ -> | [ -> | [ -> | [ -> | -> ]]]];
      apply isSpecial_cases in Eb as [ -> | [ -> | [ -> | [ -> | -> ]]]];
      cbn; intros H; try discriminate H; injection H as ->; auto.
  - rewrite (escapeChar_plain b Eb).
    apply isSpecial_cases in Ea as [ -> | [ -> | [ -> | [ -> | -> ]]]];
      cbn; intros H; injection H as <- _; discriminate Eb.
  - rewrite (escapeChar_plain a Ea).
    apply isSpecial_cases in Eb as [ -> | [ -> | [ -> | [ -> | -> ]]]];
      cbn; intros H; injection H as -> _; discriminate Ea.
  - rewrite (escapeChar_plain a Ea), (escapeChar_plain b Eb).
    cbn. intros H. injection H as -> ->. auto.
Qed.

Lemma escapeChar_length (c : ascii) :
  (1 <= length (escapeChar c))%nat
  /\ (isSpecial c = true -> (1 < length (escapeChar c))%nat).
Proof.
  destruct (isSpecial c) eqn:E.
  - apply isSpecial_cases in E as [ -> | [ -> | [ -> | [ -> | -> ]]]]; cbn; lia.
  - rewrite (escapeChar_plain c E). simpl. split; [lia | discriminate].
Qed.

Lemma escapeHtml_length (t : text) :
  (length t <= length (escapeHtml t))%nat.
Proof.
  induction t as [|c t IH]; simpl; [lia|].
  rewrite length_app. pose proof (escapeChar_length c). lia.
Qed.

(** X10: the escaped text holds no [<], no [>], no double quote and no
    single quote, whatever the text was. *)
Theorem escapeHtml_leaves_no_markup (t : text) :
  forallb (fun c => negb (isMarkup c)) (escapeHtml t) = true.
Proof.
  induction t as [|c t IH]; [reflexivity|].
  unfold escapeHtml in *. cbn [flat_map].
  rewrite forallb_app, IH, escapeChar_markup. reflexivity.
Qed.

(** X11: escaping loses nothing: two texts with the same escaped text are
    the same text. *)
Theorem escapeHtml_injective (a b : text) :
  escapeHtml a = escapeHtml b -> a = b.
Proof.
  revert b; induction a as [|c a IH]; intros [|d b] H.
  - reflexivity.
  - exfalso. apply (f_equal (@length ascii)) in H. simpl in H.
    rewrite length_app in H. pose proof (escapeChar_length d). lia.
  - exfalso. apply (f_equal (@length ascii)) in H. simpl in H.
    rewrite length_app in H. pose proof (escapeChar_length c). lia.
  - unfold escapeHtml in H. cbn [flat_map] in H.
    apply escapeChar_inj in H as [-> H]. f_equal. now apply IH.
Qed.

Lemma escapeHtml_injective_witness :
  str "a<b" = str "a<b".
Proof.
  exact (escapeHtml_injective (str "a<b") (str "a<b") eq_refl).
Defined.

(** X12: the escaped text is never shorter than the text, and it is the
    text itself exactly when the text holds none of the five characters
    [&], [<], [>], double quote and single quote. *)
Theorem escapeHtml_identity_iff_no_special (t : text) :
  (length t <= length (escapeHtml t))%nat
  /\ (escapeHtml t = t <-> forallb (fun c => negb (isSpecial c)) t = true).
Proof.
  split; [apply escapeHtml_length|]. split.
  - induction t as [|c t IH]; [reflexivity|]. intros H.
    unfold escapeHtml in *. cbn [flat_map forallb] in *.
    destruct (isSpecial c) eqn:E.
    + exfalso. apply (f_equal (@length ascii)) in H.
      rewrite length_app in H. simpl in H.
      pose proof (proj2 (escapeChar_length c) E).
      pose proof (escapeHtml_length t). unfold escapeHtml in *. lia.
    + rewrite (escapeChar_plain c E) in H. injection H as H.
      simpl. now apply IH.
  - induction t as [|c t IH]; [reflexivity|]. intros H.
    cbn [forallb] in H. apply andb_true_iff in H as [Hc Ht].
    apply negb_true_iff in Hc.
    unfold escapeHtml in *. cbn [flat_map].
    rewrite (escapeChar_plain c Hc), (IH Ht). reflexivity.
Qed.

(** ** When the conversion of the response throws *)

Module ConversionFacts.
Import Analyze.

Lemma convertFix_nullish (v : value) (index : nat) :
  isNullish v = true -> convertFix v index = TypeError.
Proof. destruct v; try discriminate; reflexivity. Qed.

Lemma mapFixes_throws_iff (items : list value) (index : nat) :
  mapFixes items index = TypeError <-> existsb isNullish items = true.
Proof.
  split.
  - intros H. destruct (existsb isNullish items) eqn:E; [reflexivity|].
    assert (Hall : forallb (fun v => negb (isNullish v)) items = true).
    { clear H. induction items as [|v items IH]; [reflexivity|].
      simpl in *. apply orb_false_iff in E as [-> E]. simpl. now apply IH. }
    destruct (AnalyzeFacts.mapFixes_returns items index Hall) as (fs & Hfs & _).
    congruence.
  - revert index; induction items as [|v items IH]; intros index H;
      [discriminate|].
    simpl in H. cbn [mapFixes].
    destruct (isNullish v) eqn:E.
    + now rewrite (convertFix_nullish v index E).
    + simpl in H.
      destruct (AnalyzeFacts.convertFix_returns v index E) as (r & -> & _).
      now rewrite (IH (S index) H).
Qed.

Lemma getProp_field (v : value) (k : string) :
  isNullish v = false -> getProp v k = Returned (field v k).
Proof. destruct v; try discriminate; reflexivity. Qed.

(** X13: the conversion of the parsed response throws in three cases and
    in no other: the response is [null]; its [fixes] is truthy and is not
    an array; its [fixes] is an array that holds a [null].  A response
    whose [fixes] is absent or falsy gives the empty list of proposals. *)
Theorem convertFixes_throws_iff (parsed : value) :
  (convertFixes parsed = TypeError
   <-> isNullish parsed = true
       \/ (truthy (field parsed "fixes") = true
           /\ forall items, field parsed "fixes" <> VArr items)
       \/ (exists items,
             field parsed "fixes" = VArr items
             /\ existsb isNullish items = true))
  /\ (isNullish parsed = false -> truthy (field parsed "fixes") = false ->
      convertFixes parsed = Returned []).
Proof.
  destruct (isNullish parsed) eqn:En.
  - split; [|discriminate].
    split; [auto|]. intros _. destruct parsed; try discriminate; reflexivity.
  - unfold convertFixes. rewrite (getProp_field parsed "fixes" En).
    unfold orElse. destruct (truthy (field parsed "fixes")) eqn:Et.
    + split; [|discriminate].
      destruct (field parsed "fixes") eqn:Ef;
        try (split; [intros _; right; left; split; [reflexivity | discriminate]
                    | reflexivity]).
      rewrite mapFixes_throws_iff. split.
      * intros H. right. right. now exists items.
      * intros [H|[[_ H]|(items' & Hi & H)]]; [discriminate | |].
        -- now contradiction (H items).
        -- now injection Hi as <-.
    + split; [|reflexivity]. cbn [mapFixes]. split; [discriminate|].
      intros [H|[[H _]|(items & Hi & _)]]; try discriminate.
      rewrite Hi in Et. discriminate.
Qed.

Lemma to_uint_nonnil (n : nat) : Nat.to_uint n <> Decimal.Nil.
Proof.
  pose proof (DecimalNat.Unsigned.to_of (Nat.to_uint n)) as H.
  rewrite DecimalNat.Unsigned.of_to in H. rewrite H.
  apply DecimalFacts.unorm_nonnil.
Qed.

(** X14: the identifiers made up for proposals that come without one are
    different at different positions of the response. *)
Theorem default_ids_differ (i j : nat) : fixName i = fixName j -> i = j.
Proof.
  unfold fixName. intros H. simpl in H. injection H as H.
  apply DecimalNat.Unsigned.to_uint_inj.
  pose proof (NilZero.usu _ (to_uint_nonnil i)) as Hi.
  pose proof (NilZero.usu _ (to_uint_nonnil j)) as Hj.
  rewrite H in Hi. congruence.
Qed.

Lemma default_ids_differ_witness : 12%nat = 12%nat.
Proof. exact (default_ids_differ 12 12 eq_refl). Defined.

End ConversionFacts.

(** ** Cleaning a response of its code fences *)

Lemma indexOf_absent_iff (t p : text) :
  indexOf t p = -1 <-> forall pre post, t <> pre ++ p ++ post.
Proof.
  split; [apply indexOf_absent|]. intros H.
  destruct (Z.eq_dec (indexOf t p) (-1)) as [E|E]; [exact E|].
  destruct (indexOf_found t p E) as (pre & post & Ht & _).
  now contradiction (H pre post).
Qed.

(** What does not occur in a text occurs in no part of it. *)
Lemma indexOf_absent_part (a t b p : text) :
  indexOf (a ++ t ++ b) p = -1 -> indexOf t p = -1.
Proof.
  rewrite !indexOf_absent_iff. intros H pre post Ht.
  apply (H (a ++ pre) (post ++ b)). rewrite Ht.
  now rewrite <- !app_assoc.
Qed.

Lemma trimStart_part (t : text) : exists a, t = a ++ trimStart t.
Proof.
  induction t as [|c t [a IH]]; [now exists []|]. simpl.
  destruct (isSpace c); [|now exists []].
  exists (c :: a). simpl. now rewrite <- IH.
Qed.

Lemma trim_part (t : text) : exists a b, t = a ++ trim t ++ b.
Proof.
  destruct (trimStart_part t) as [a Ha].
  destruct (trimStart_part (rev (trimStart t))) as [b Hb].
  exists a, (rev b). unfold trim, trimEnd.
  rewrite <- rev_app_distr, <- Hb, rev_involutive. exact Ha.
Qed.

Lemma startsWith_fence (t : text) :
  startsWith t fence = (3 <=? leadingTicks t)%nat.
Proof.
  unfold fence, str, isTick.
  destruct t as [|c [|c2 [|c3 r]]];
    cbn [list_ascii_of_string startsWith leadingTicks];
    rewrite ?(Ascii.eqb_sym "`");
    repeat match goal with |- context [Ascii.eqb ?x "`"] =>
      destruct (Ascii.eqb x "`") end;
    rewrite ?startsWith_nil; reflexivity.
Qed.

(** Where no fence begins the first character is kept. *)
Lemma stripFence_keep (c : ascii) (r : text) :
  (leadingTicks (c :: r) < 3)%nat ->
  stripFence (c :: r) = c :: stripFence r.
Proof.
  intros H. cbn [stripFence].
  destruct r as [|c2 [|c3 r']]; try reflexivity.
  cbn [leadingTicks] in H.
  destruct (isTick c), (isTick c2), (isTick c3); try reflexivity; lia.
Qed.

(** Where a fence begins it is taken, with the line feed after it. *)
Lemma stripFence_take (t : text) :
  (3 <= leadingTicks t)%nat ->
  exists r', (length r' < length t)%nat /\ stripFence t = stripFence r'.
Proof.
  destruct t as [|c [|c2 [|c3 r']]]; cbn [leadingTicks].
  - lia.
  - destruct (isTick c); lia.
  - destruct (isTick c), (isTick c2); lia.
  - intros H. cbn [stripFence].
    destruct (isTick c), (isTick c2), (isTick c3); try lia. cbn [andb].
    destruct r' as [|d r''].
    + exists []. simpl. split; [lia | reflexivity].
    + destruct (Ascii.eqb d LF).
      * exists r''. simpl. split; [lia | reflexivity].
      * exists (d :: r''). simpl. split; [lia | reflexivity].
Qed.

Lemma stripFence_leadingTicks (t : text) :
  (leadingTicks t < 3)%nat -> leadingTicks (stripFence t) = leadingTicks t.
Proof.
  induction t as [|c r IH]; intros H; [reflexivity|].
  rewrite (stripFence_keep c r H). cbn [leadingTicks] in *.
  destruct (isTick c); [|reflexivity].
  rewrite IH; [reflexivity | lia].
Qed.

Lemma stripFence_no_fence_from (n : nat) (t : text) (i : Z) :
  (length t <= n)%nat -> indexOfFrom (stripFence t) fence i = -1.
Proof.
  revert t i; induction n as [|n IH]; intros t i Hn.
  - destruct t; [reflexivity | simpl in Hn; lia].
  - destruct (le_lt_dec 3 (leadingTicks t)) as [H3|H3].
    + destruct (stripFence_take t H3) as (r' & Hlen & ->).
      apply IH. lia.
    + destruct t as [|c r]; [reflexivity|].
      rewrite (stripFence_keep c r H3).
      cbn [indexOfFrom]. rewrite startsWith_fence.
      replace (3 <=? leadingTicks (c :: stripFence r))%nat with false.
      * apply IH. simpl in Hn. lia.
      * symmetry. apply Nat.leb_gt.
        cbn [leadingTicks] in *. destruct (isTick c); [|lia].
        rewrite stripFence_leadingTicks; lia.
Qed.

Lemma stripFence_no_fence (t : text) : indexOf (stripFence t) fence = -1.
Proof. exact (stripFence_no_fence_from (length t) t 0 (Nat.le_refl _)). Qed.

Lemma trim_no_fence (t : text) :
  indexOf t fence = -1 -> indexOf (trim t) fence = -1.
Proof.
  intros H. destruct (trim_part t) as (a & b & Ht).
  rewrite Ht in H. exact (indexOf_absent_part a (trim t) b fence H).
Qed.

(** X15: what [analyzeAndGetFixes] gives to [JSON.parse] holds no run of
    three backticks, whatever the service answered. *)
Theorem cleanContent_has_no_fence (content : text) :
  indexOf (cleanContent content) fence = -1.
Proof. apply trim_no_fence, stripFence_no_fence. Qed.

(** X16: the code that [addFeature] and [quickFixSelection] put in the
    document holds no run of three backticks, whatever the service
    answered. *)
Theorem cleanCode_has_no_fence (content : text) :
  indexOf (cleanCode content) fence = -1.
Proof. apply trim_no_fence, stripFence_no_fence. Qed.

Lemma stripFence_plain (body rest : text) :
  forallb (fun c => negb (isTick c)) body = true ->
  stripFence (body ++ rest) = body ++ stripFence rest.
Proof.
  induction body as [|c body IH]; intros H; [reflexivity|].
  cbn [forallb] in H. apply andb_true_iff in H as [Hc Hb].
  apply negb_true_iff in Hc.
  rewrite <- app_comm_cons, stripFence_keep, (IH Hb); [reflexivity|].
  cbn [leadingTicks]. rewrite Hc. lia.
Qed.

Lemma stripJsonFence_keep (c : ascii) (r : text) :
  isTick c = false -> stripJsonFence (c :: r) = c :: stripJsonFence r.
Proof.
  intros H. cbn [stripJsonFence]. rewrite H.
  destruct r as [|c2 [|c3 [|c4 [|c5 [|c6 [|c7 r']]]]]]; reflexivity.
Qed.

Lemma stripJsonFence_plain (body rest : text) :
  forallb (fun c => negb (isTick c)) body = true ->
  stripJsonFence (body ++ rest) = body ++ stripJsonFence rest.
Proof.
  induction body as [|c body IH]; intros H; [reflexivity|].
  cbn [forallb] in H. apply andb_true_iff in H as [Hc Hb].
  apply negb_true_iff in Hc.
  now rewrite <- app_comm_cons, (stripJsonFence_keep c _ Hc), (IH Hb).
Qed.

Lemma stripLangFence_keep (c : ascii) (r : text) :
  isTick c = false ->
  stripLangFenceFrom false (c :: r) = c :: stripLangFenceFrom false r.
Proof.
  intros H. cbn [stripLangFenceFrom andb]. rewrite H.
  destruct r as [|c2 [|c3 r']]; reflexivity.
Qed.

Lemma stripLangFence_plain (body rest : text) :
  forallb (fun c => negb (isTick c)) body = true ->
  stripLangFenceFrom false (body ++ rest)
  = body ++ stripLangFenceFrom false rest.
Proof.
  induction body as [|c body IH]; intros H; [reflexivity|].
  cbn [forallb] in H. apply andb_true_iff in H as [Hc Hb].
  apply negb_true_iff in Hc.
  now rewrite <- app_comm_cons, (stripLangFence_keep c _ Hc), (IH Hb).
Qed.

(** A match that has begun takes the word characters and the line feed. *)
Lemma stripLangFence_word (lang rest : text) :
  forallb isWord lang = true ->
  stripLangFenceFrom true (lang ++ LF :: rest) = stripLangFenceFrom false rest.
Proof.
  induction lang as [|c lang IH]; intros H; [reflexivity|].
  cbn [forallb] in H. apply andb_true_iff in H as [Hc Hl].
  rewrite <- app_comm_cons. cbn [stripLangFenceFrom andb]. rewrite Hc.
  now apply IH.
Qed.

Lemma trimStart_snoc (x : text) (d : ascii) :
  isSpace d = true ->
  trimStart (x ++ [d])
  = match trimStart x with [] => [] | y => y ++ [d] end.
Proof.
  intros Hd. induction x as [|c x IH]; simpl.
  - now rewrite Hd.
  - destruct (isSpace c); [exact IH | reflexivity].
Qed.

Lemma trimEnd_snoc (y : text) (d : ascii) :
  isSpace d = true -> trimEnd (y ++ [d]) = trimEnd y.
Proof.
  intros Hd. unfold trimEnd. rewrite rev_app_distr. simpl. now rewrite Hd.
Qed.

Lemma trim_snoc (x : text) (d : ascii) :
  isSpace d = true -> trim (x ++ [d]) = trim x.
Proof.
  intros Hd. unfold trim. rewrite (trimStart_snoc x d Hd).
  destruct (trimStart x) as [|c y]; [reflexivity|].
  now apply trimEnd_snoc.
Qed.

(** X17: a response that is a body without backticks, wrapped in a fence
    that opens with [json] and a line feed and closes after a line feed, is
    handed to [JSON.parse] as the body, trimmed. *)
Theorem cleanContent_unwraps_json_fence (body : text) :
  forallb (fun c => negb (isTick c)) body = true ->
  cleanContent (str "```json" ++ LF :: body ++ LF :: fence) = trim body.
Proof.
  intros H. unfold cleanContent.
  change (stripJsonFence (str "```json" ++ LF :: body ++ LF :: fence))
    with (stripJsonFence (body ++ LF :: fence)).
  rewrite (stripJsonFence_plain body _ H).
  change (stripJsonFence (LF :: fence)) with (LF :: fence).
  rewrite (stripFence_plain body _ H).
  change (stripFence (LF :: fence)) with [LF].
  now apply trim_snoc.
Qed.

Lemma cleanContent_unwraps_json_fence_witness :
  cleanContent (str "```json" ++ LF :: str " {}" ++ LF :: fence) = trim (str " {}").
Proof.
  exact (cleanContent_unwraps_json_fence (str " {}") eq_refl).
Defined.

(** X18: a response that is a body without backticks, wrapped in a fence
    that opens with a language name of word characters (or none) and a
    line feed and closes after a line feed, is put in the document as the
    body, trimmed. *)
Theorem cleanCode_unwraps_language_fence (lang body : text) :
  forallb isWord lang = true ->
  forallb (fun c => negb (isTick c)) body = true ->
  cleanCode (fence ++ lang ++ LF :: body ++ LF :: fence) = trim body.
Proof.
  intros Hl Hb. unfold cleanCode, stripLangFence.
  change (stripLangFenceFrom false (fence ++ lang ++ LF :: body ++ LF :: fence))
    with (stripLangFenceFrom true (lang ++ LF :: body ++ LF :: fence)).
  rewrite (stripLangFence_word lang _ Hl).
  rewrite (stripLangFence_plain body _ Hb).
  change (stripLangFenceFrom false (LF :: fence)) with [LF].
  rewrite (stripFence_plain body _ Hb).
  change (stripFence [LF]) with [LF].
  now apply trim_snoc.
Qed.

Lemma cleanCode_unwraps_language_fence_witness :
  cleanCode (fence ++ str "javascript" ++ LF :: str "let x = 1;" ++ LF :: fence)
  = trim (str "let x = 1;").
Proof.
  exact (cleanCode_unwraps_language_fence (str "javascript") (str "let x = 1;")
           eq_refl eq_refl).
Defined.

(** X19: a response that holds no backtick is only trimmed, by the one
    clean-up and by the other. *)
Theorem no_backtick_only_trimmed (content : text) :
  forallb (fun c => negb (isTick c)) content = true ->
  cleanContent content = trim content /\ cleanCode content = trim content.
Proof.
  intros H. unfold cleanContent, cleanCode, stripLangFence.
  rewrite <- (app_nil_r content) at 1 3.
  rewrite (stripJsonFence_plain content [] H).
  rewrite (stripLangFence_plain content [] H).
  cbn [stripJsonFence stripLangFenceFrom].
  rewrite (stripFence_plain content [] H).
  cbn [stripFence]. now rewrite !app_nil_r.
Qed.

Lemma no_backtick_only_trimmed_witness :
  cleanContent (str " {} ") = trim (str " {} ")
  /\ cleanCode (str " {} ") = trim (str " {} ").
Proof. exact (no_backtick_only_trimmed (str " {} ") eq_refl). Defined.

(** ** calculateCodeQualityMetrics *)

Lemma splitLines_cons (c : ascii) (r : text) :
  splitLines (c :: r)
  = if Ascii.eqb c LF then [] :: splitLines r
    else (c :: hd [] (splitLines r)) :: tl (splitLines r).
Proof.
  cbn [splitLines]. destruct (Ascii.eqb c LF); [reflexivity|].
  destruct (splitLines r) as [|l ls] eqn:E; [|reflexivity].
  destruct r as [|d r]; [discriminate|]. cbn [splitLines] in E.
  destruct (Ascii.eqb d LF); [discriminate|].
  destruct (splitLines r); discriminate.
Qed.

Lemma splitLines_nonempty (t : text) :
  splitLines t = hd [] (splitLines t) :: tl (splitLines t).
Proof.
  destruct t as [|c r]; [reflexivity|].
  rewrite splitLines_cons. now destruct (Ascii.eqb c LF).
Qed.

Lemma splitLines_length (t : text) :
  length (splitLines t) = S (count_occ ascii_dec t LF).
Proof.
  induction t as [|c r IH]; [reflexivity|].
  rewrite splitLines_cons. destruct (Ascii.eqb c LF) eqn:E.
  - apply Ascii.eqb_eq in E. subst c.
    rewrite count_occ_cons_eq by reflexivity. simpl. now rewrite IH.
  - apply Ascii.eqb_neq in E.
    rewrite count_occ_cons_neq by exact E.
    rewrite <- IH. rewrite (splitLines_nonempty r) at 3. reflexivity.
Qed.

Lemma splitLines_characters (t : text) :
  (charactersIn (splitLines t) + length (splitLines t) = S (length t))%nat.
Proof.
  unfold charactersIn. induction t as [|c r IH]; [reflexivity|].
  rewrite splitLines_cons. destruct (Ascii.eqb c LF).
  - simpl in *. lia.
  - rewrite (splitLines_nonempty r) in IH. simpl in *. lia.
Qed.

Lemma splitLines_no_LF (t : text) :
  Forall (fun l => ~ In LF l) (splitLines t).
Proof.
  induction t as [|c r IH]; [constructor; [intros []|constructor]|].
  rewrite splitLines_cons. destruct (Ascii.eqb c LF) eqn:E.
  - constructor; [intros []|exact IH].
  - apply Ascii.eqb_neq in E.
    rewrite (splitLines_nonempty r) in IH.
    inversion IH as [|? ? Hh Ht]; subst.
    constructor; [|exact Ht].
    intros [H|H]; [now apply E | now apply Hh].
Qed.

Lemma filter_disjoint_length (A : Type) (f g : A -> bool) (l : list A) :
  (forall x, f x = true -> g x = false) ->
  (length (filter f l) + length (filter g l) <= length l)%nat.
Proof.
  intros H. induction l as [|x l IH]; simpl; [lia|].
  destruct (f x) eqn:Ef.
  - rewrite (H x Ef). simpl. lia.
  - destruct (g x); simpl; lia.
Qed.

Lemma empty_line_is_no_comment (l : text) :
  isEmptyLine l = true -> isCommentLine l = false.
Proof.
  unfold isEmptyLine, isCommentLine.
  destruct (trim l); [reflexivity | discriminate].
Qed.

(** What is left by [trimStart] does not begin with white space. *)
Lemma trimStart_head (t : text) (c : ascii) (r : text) :
  trimStart t = c :: r -> isSpace c = false.
Proof.
  induction t as [|d t IH]; [discriminate|]. simpl.
  destruct (isSpace d) eqn:E; [exact IH|].
  intros H. injection H as <- _. exact E.
Qed.

Lemma trimStart_nil (t : text) :
  trimStart t = [] <-> forallb isSpace t = true.
Proof.
  induction t as [|d t IH]; simpl; [tauto|].
  destruct (isSpace d); simpl; [exact IH|]. split; discriminate.
Qed.

Lemma trimStart_keeps_last (l : text) (c : ascii) :
  isSpace c = false -> exists z, trimStart (l ++ [c]) = z ++ [c].
Proof.
  intros Hc. induction l as [|d l [z IH]]; simpl.
  - rewrite Hc. now exists [].
  - destruct (isSpace d); [now exists z|].
    now exists (d :: l).
Qed.

Lemma trim_head (t : text) :
  match trim t with
  | [] => forallb isSpace t = true
  | c :: _ => isSpace c = false /\ forallb isSpace t = false
  end.
Proof.
  unfold trim, trimEnd.
  destruct (trimStart t) as [|c y] eqn:E.
  - simpl. now apply trimStart_nil.
  - pose proof (trimStart_head t c y E) as Hc.
    assert (Hn : forallb isSpace t = false).
    { destruct (forallb isSpace t) eqn:F; [|reflexivity].
      apply trimStart_nil in F. congruence. }
    simpl rev.
    destruct (trimStart_keeps_last (rev y) c Hc) as [z ->].
    rewrite rev_app_distr. simpl. auto.
Qed.

(** X20: the document always has one line or more, one more than it has
    line feeds, so the ratios that [getQualityRating] takes over
    [totalLines] never divide by zero. *)
Theorem totalLines_at_least_one (C : Type) (score : text -> C)
    (diagnostics : nat) (content : text) :
  Z.of_nat (totalLines (calculateCodeQualityMetrics score diagnostics content))
  = lineCount content
  /\ (1 <= totalLines (calculateCodeQualityMetrics score diagnostics content))%nat.
Proof.
  unfold calculateCodeQualityMetrics, lineCount. cbn [totalLines].
  rewrite splitLines_length. split; lia.
Qed.

(** X21: no line holds a line feed, and the characters of the document are
    those of its lines and one line feed between each two of them:
    [totalCharacters + 1] is the sum of the lengths of the lines plus
    [totalLines]. *)
Theorem characters_are_lines_and_line_feeds (C : Type) (score : text -> C)
    (diagnostics : nat) (content : text) :
  Forall (fun l => ~ In LF l) (splitLines content)
  /\ (totalCharacters (calculateCodeQualityMetrics score diagnostics content) + 1
      = charactersIn (splitLines content)
        + totalLines (calculateCodeQualityMetrics score diagnostics content))%nat.
Proof.
  split; [apply splitLines_no_LF|].
  unfold calculateCodeQualityMetrics. cbn [totalLines totalCharacters].
  pose proof (splitLines_characters content). lia.
Qed.

(** X22: no line is counted both as empty and as a comment, so the empty
    lines and the comment lines together are no more than the lines. *)
Theorem empty_and_comment_lines_within_total (C : Type) (score : text -> C)
    (diagnostics : nat) (content : text) :
  (emptyLines (calculateCodeQualityMetrics score diagnostics content)
   + commentLines (calculateCodeQualityMetrics score diagnostics content)
   <= totalLines (calculateCodeQualityMetrics score diagnostics content))%nat.
Proof.
  unfold calculateCodeQualityMetrics. cbn [totalLines emptyLines commentLines].
  apply filter_disjoint_length, empty_line_is_no_comment.
Qed.

(** X23: a document of white space only, the empty one among them, has no
    word, and every other document has one word or more. *)
Theorem no_word_iff_white_space (C : Type) (score : text -> C)
    (diagnostics : nat) (content : text) :
  totalWords (calculateCodeQualityMetrics score diagnostics content) = 0%nat
  <-> forallb isSpace content = true.
Proof.
  unfold calculateCodeQualityMetrics. cbn [totalWords].
  pose proof (trim_head content) as H.
  destruct (trim content) as [|c r].
  - simpl. tauto.
  - destruct H as [Hc Hn]. rewrite Hn.
    cbn [splitSpaces]. rewrite Hc.
    destruct (splitSpaces false r) as [|w ws]; simpl; split; discriminate.
Qed.

(** ** reviewProject: the files that are reviewed *)

Lemma includes_app (t rest p : text) :
  includes t p = true -> includes (t ++ rest) p = true.
Proof.
  unfold includes. rewrite !negb_true_iff, !Z.eqb_neq.
  intros H E. apply H.
  apply (indexOf_absent_part [] t rest p). exact E.
Qed.

Lemma passedOver_false (fullPath item : text) :
  passedOver fullPath item = false ->
  Forall (fun n => includes fullPath n = false) noisyNames
  /\ startsWith item (str ".") = false.
Proof.
  unfold passedOver, noisyNames. intros H.
  repeat (apply orb_false_iff in H as [H ?]).
  split; [|assumption]. repeat constructor; assumption.
Qed.

Fixpoint entry_nested_ind (P : entry -> Prop)
    (Hfile : forall name, P (FileEntry name))
    (Hdir : forall name items, Forall P items -> P (DirEntry name items))
    (Hother : forall name, P (OtherEntry name))
    (e : entry) : P e :=
  match e with
  | FileEntry name => Hfile name
  | DirEntry name items =>
      Hdir name items
        ((fix all (l : list entry) : Forall P l :=
            match l with
            | [] => Forall_nil P
            | x :: l' =>
                Forall_cons x (entry_nested_ind P Hfile Hdir Hother x) (all l')
            end) items)
  | OtherEntry name => Hother name
  end.

Section ScanFacts.

Variable pathJoin : text -> text -> text.
Variable extname : text -> text.
Variable fileExtensions : list text.

(** A joined path begins with the directory. *)
Hypothesis pathJoin_under : forall dir item, exists rest, pathJoin dir item = dir ++ rest.

Lemma scanItem_found (e : entry) :
  forall dir p,
    In p (scanItem pathJoin extname fileExtensions dir e) ->
    foundUnder pathJoin extname fileExtensions dir p.
Proof.
  induction e as [name|name items IH|name] using entry_nested_ind;
    intros dir p; cbn [scanItem entryName];
    destruct (passedOver (pathJoin dir name) name) eqn:E;
    try (intros []).
  - destruct (hasExtension fileExtensions (extname name)) eqn:Hx; [|intros []].
    intros [<-|[]]. apply passedOver_false in E as [Hn Hd].
    split; [apply pathJoin_under|]. split; [exact Hn|].
    now exists dir, name.
  - intros Hin. apply in_flat_map in Hin as (x & Hx & Hp).
    rewrite Forall_forall in IH.
    destruct (IH x Hx _ _ Hp) as ([rest ->] & Hn & Hitem).
    split; [|split; assumption].
    destruct (pathJoin_under dir name) as [rest' ->].
    exists (rest' ++ rest). now rewrite app_assoc.
Qed.

End ScanFacts.

Lemma pathJoin_passedOver (pathJoin : text -> text -> text) :
  (forall dir item, exists rest, pathJoin dir item = dir ++ rest) ->
  forall dir item n,
    In n noisyNames -> includes dir n = true ->
    passedOver (pathJoin dir item) item = true.
Proof.
  intros Hjoin dir item n Hn Hdir.
  destruct (Hjoin dir item) as [rest ->].
  pose proof (includes_app dir rest n Hdir) as H.
  unfold passedOver.
  destruct Hn as [<-|[<-|[<-|[<-|[]]]]]; rewrite H;
    rewrite ?orb_true_r; reflexivity.
Qed.

(** X24: every path that the scan of a project finds lies under the root,
    holds none of [node_modules], [dist], [build] and [.git] anywhere in
    it, and names a file whose name does not open with a dot and whose
    extension is one of the configured ones. *)
Theorem scanned_files_pass_the_filter (pathJoin : text -> text -> text)
    (extname : text -> text) (fileExtensions : list text)
    (rootPath : text) (items : list entry) (p : text) :
  (forall dir item, exists rest, pathJoin dir item = dir ++ rest) ->
  In p (scanDir pathJoin extname fileExtensions rootPath items) ->
  foundUnder pathJoin extname fileExtensions rootPath p.
Proof.
  intros Hjoin Hin. unfold scanDir in Hin.
  apply in_flat_map in Hin as (e & _ & Hp).
  exact (scanItem_found pathJoin extname fileExtensions Hjoin e rootPath p Hp).
Qed.

Lemma scanned_files_pass_the_filter_witness :
  foundUnder posixJoin extnameOfName [str ".js"] (str "/p") (str "/p/src/b.js").
Proof.
  apply (scanned_files_pass_the_filter posixJoin extnameOfName [str ".js"]
           (str "/p")
           [FileEntry (str "a.md");
            DirEntry (str "src")
              [FileEntry (str "b.js"); FileEntry (str "distance.js")]]).
  - intros dir item. exists ("/"%char :: item). reflexivity.
  - vm_compute. left. reflexivity.
Defined.

(** X25: when the path of the root itself holds one of [node_modules],
    [dist], [build] and [.git], as in [/home/me/build/app], the scan finds
    no file at all. *)
Theorem noisy_root_finds_nothing (pathJoin : text -> text -> text)
    (extname : text -> text) (fileExtensions : list text)
    (rootPath : text) (items : list entry) (n : text) :
  (forall dir item, exists rest, pathJoin dir item = dir ++ rest) ->
  In n noisyNames -> includes rootPath n = true ->
  scanDir pathJoin extname fileExtensions rootPath items = [].
Proof.
  intros Hjoin Hn Hroot. unfold scanDir.
  induction items as [|e items IH]; [reflexivity|].
  cbn [flat_map]. rewrite IH, app_nil_r.
  destruct e as [name|name sub|name]; cbn [scanItem entryName];
    rewrite (pathJoin_passedOver pathJoin Hjoin rootPath name n Hn Hroot);
    reflexivity.
Qed.

Lemma noisy_root_finds_nothing_witness :
  scanDir posixJoin extnameOfName [str ".js"] (str "/home/me/build/app")
    [FileEntry (str "a.js"); DirEntry (str "src") [FileEntry (str "b.js")]]
  = [].
Proof.
  apply (noisy_root_finds_nothing posixJoin extnameOfName [str ".js"]
           (str "/home/me/build/app")
           [FileEntry (str "a.js"); DirEntry (str "src") [FileEntry (str "b.js")]]
           (str "build")).
  - intros dir item. exists ("/"%char :: item). reflexivity.
  - right. right. left. reflexivity.
  - reflexivity.
Defined.

(** ** generateSummaryReport: the counts *)

Lemma bugs_fold (results : list reviewResult) (c : issueCounts) :
  bugs (fold_left countResult results c)
  = (bugs c
     + length (filter (fun r => mentionsBug (toLowerCase (review r))) results))%nat.
Proof.
  revert c; induction results as [|r results IH]; intros c; simpl; [lia|].
  rewrite IH. cbn [countResult bugs].
  destruct (mentionsBug (toLowerCase (review r))); simpl; lia.
Qed.

Lemma includes_prefix (p rest : text) : includes (p ++ rest) p = true.
Proof.
  unfold includes.
  destruct p as [|a p]; [now rewrite indexOf_empty|].
  unfold indexOf. cbn [app indexOfFrom].
  change (a :: p ++ rest) with ((a :: p) ++ rest).
  now rewrite startsWith_app.
Qed.

Lemma failed_review_mentions_bug (r : reviewResult) :
  isFailedReview r = true -> mentionsBug (toLowerCase (review r)) = true.
Proof.
  unfold isFailedReview. intros H.
  apply startsWith_inv in H as [s ->].
  unfold toLowerCase. rewrite map_app.
  change (map toLowerUnit (str "Error reviewing file: "))
    with (str "error" ++ str " reviewing file: ").
  rewrite <- app_assoc. unfold mentionsBug.
  rewrite (includes_prefix (str "error")).
  now rewrite orb_true_r.
Qed.

Lemma filter_length_le (A : Type) (f g : A -> bool) (l : list A) :
  (forall x, f x = true -> g x = true) ->
  (length (filter f l) <= length (filter g l))%nat.
Proof.
  intros H. induction l as [|x l IH]; simpl; [lia|].
  destruct (f x) eqn:Ef.
  - rewrite (H x Ef). simpl. lia.
  - destruct (g x); simpl; lia.
Qed.

(** X26: a file whose review threw is recorded with a text that begins
    with [Error reviewing file: ], in which the summary finds the word
    [error]: every such file is counted among the bugs, whatever the
    message of the error. *)
Theorem failed_reviews_counted_as_bugs (reviewResults : list reviewResult) :
  (length (filter isFailedReview reviewResults)
   <= bugs (countIssues reviewResults))%nat
  /\ forall filePath message,
       isFailedReview (failedReview filePath message) = true.
Proof.
  split.
  - unfold countIssues. rewrite bugs_fold. simpl.
    apply filter_length_le, failed_review_mentions_bug.
  - intros filePath message. unfold isFailedReview, failedReview.
    cbn [review]. apply startsWith_app.
Qed.

(** ** The order of a batch, its failures and its second run *)

Section Order.

Variable host : nat -> edit_reply.

Lemma processAll_fold (st : batch_state) (l : list SuggestedFix) :
  fst (processAll host st l)
  = fold_left (fun s fx => fst (processFix host s fx)) l st.
Proof.
  revert st; induction l as [|fx l IH]; intros st; [reflexivity|].
  rewrite processAll_cons. cbn [fst fold_left]. apply IH.
Qed.

Lemma reached_processAll (ed : editor_state) (l : list SuggestedFix) :
  reached host ed l = fst (processAll host (initialBatch ed) l).
Proof. unfold reached. now rewrite processAll_fold. Qed.

Lemma reached_snoc (ed : editor_state) (l : list SuggestedFix) (fx : SuggestedFix) :
  reached host ed (l ++ [fx]) = fst (processFix host (reached host ed l) fx).
Proof. unfold reached. now rewrite fold_left_app. Qed.

Lemma firstn_S_nth (A : Type) (l : list A) (k : nat) (x : A) :
  nth_error l k = Some x -> firstn (S k) l = firstn k l ++ [x].
Proof.
  revert k; induction l as [|a l IH]; intros [|k] H; try discriminate.
  - injection H as ->. reflexivity.
  - simpl in *. now rewrite (IH k H).
Qed.

(** The edits are asked for in the order of the list: what has been asked
    when [k] fixes are done has been asked when [j >= k] are. *)
Lemma reached_editsRequested_mono (ed : editor_state) (l : list SuggestedFix)
    (k j : nat) :
  (k <= j)%nat ->
  (editsRequested (editor (reached host ed (firstn k l)))
   <= editsRequested (editor (reached host ed (firstn j l))))%nat.
Proof.
  intros Hkj.
  assert (E : firstn j l = firstn k l ++ skipn k (firstn j l)).
  { rewrite <- (firstn_skipn k (firstn j l)) at 1.
    now rewrite firstn_firstn, Nat.min_l. }
  rewrite E. unfold reached. rewrite fold_left_app.
  rewrite <- !processAll_fold.
  rewrite (processAll_editsRequested host _ (skipn k (firstn j l))). lia.
Qed.

Lemma processFix_attemptedAs (st : batch_state) (fx : SuggestedFix) :
  attemptedAs host st fx (snd (processFix host st fx)).
Proof.
  unfold attemptedAs, processFix, editor_edit. cbv zeta.
  destruct (indexOf _ _ =? -1) eqn:E.
  - apply Z.eqb_eq in E. left. now split.
  - apply Z.eqb_neq in E. right.
    destruct (overlapsAny _ _ _) eqn:O; [left; now repeat split|].
    right. split; [exact E|]. split; [reflexivity|].
    destruct (host _); reflexivity.
Qed.

(** With its [catch] the body of the loop never throws, and it does what
    [processFix] does. *)
Lemma iteration_processFix (st : batch_state) (fx : SuggestedFix) :
  iteration host st fx
  = (fst (processFix host st fx), Completes (snd (processFix host st fx))).
Proof.
  unfold iteration, tryBlock, processFix, catchBlock, editor_edit.
  destruct (indexOf _ _ =? -1); [reflexivity|].
  destruct (overlapsAny _ _ _); [reflexivity|].
  destruct (host _); reflexivity.
Qed.

Lemma forOf_iteration (st : batch_state) (l : list SuggestedFix) :
  forOf (iteration host) st l
  = (fst (processAll host st l), snd (processAll host st l), Completes tt).
Proof.
  revert st; induction l as [|fx l IH]; intros st; [reflexivity|].
  cbn [forOf]. rewrite iteration_processFix, IH, processAll_cons.
  reflexivity.
Qed.

(** A failed iteration changes nothing but [failedCount] and the number of
    edits asked for. *)
Lemma processFix_absorbed (st : batch_state) (fx : SuggestedFix) :
  snd (processFix host st fx) = HostRefused
  \/ snd (processFix host st fx) = Raised ->
  absorbed st (fst (processFix host st fx)).
Proof.
  intros H.
  destruct (processFix_not_applied host st fx) as (Hd & Hr & Ha);
    [destruct H as [-> | ->]; discriminate|].
  pose proof (processFix_counters host st fx) as Hc.
  pose proof (processFix_editsRequested host st fx) as He.
  destruct (processFix host st fx) as [st1 o]. simpl in *.
  unfold absorbed.
  destruct H as [-> | ->]; simpl in Hc; injection Hc as _ Hf Hs;
    repeat split; try assumption; lia.
Qed.

(** With every iteration ended as not found, no anchor was in the document
    the loop began with. *)
Lemma processAll_all_NotFound (st : batch_state) (l : list SuggestedFix) :
  Forall (fun e => snd e = NotFound) (snd (processAll host st l)) ->
  Forall (fun fx => anchorGone (document (editor st)) fx = true) l.
Proof.
  revert st; induction l as [|fx l IH]; intros st H; [constructor|].
  rewrite processAll_cons in H. cbn [snd] in H.
  inversion H as [|? ? Hfx Hrest]; subst. cbn [snd] in Hfx.
  constructor; [now apply (processFix_NotFound host st fx)|].
  destruct (processFix_not_applied host st fx) as (Hd & _ & _);
    [rewrite Hfx; discriminate|].
  rewrite <- Hd. now apply IH.
Qed.

End Order.

(** C6: the loop goes through the proposals of the batch rearranged so that
    [lineStart] never grows, and runs them in that order.  The sorted batch
    is a permutation of the batch in descending [lineStart]; the fixes of
    the log, in order, are the sorted batch; the [k]-th of them is run in
    the state reached by running the [k] before it, the first first; the
    edits are asked of the host in that order; and the state the loop ends
    in is the one reached after the last. *)
Theorem batch_processed_in_descending_lineStart (host : nat -> edit_reply)
    (ed : editor_state) (fixes : list SuggestedFix) :
  exists st log,
    applyAllFixes (Some YesApplyAll) host ed fixes = Ran st log
    /\ map fst log = sortFixes fixes
    /\ Permutation fixes (sortFixes fixes)
    /\ StronglySorted (fun a b => lineStart a >= lineStart b) (sortFixes fixes)
    /\ st = reached host ed (sortFixes fixes)
    /\ (forall k fx,
          nth_error (sortFixes fixes) k = Some fx ->
          exists o,
            nth_error log k = Some (fx, o)
            /\ processFix host (reached host ed (firstn k (sortFixes fixes))) fx
               = (reached host ed (firstn (S k) (sortFixes fixes)), o)
            /\ attemptedAs host
                 (reached host ed (firstn k (sortFixes fixes))) fx o)
    /\ (forall k j, (k <= j)%nat ->
          (editsRequested
             (editor (reached host ed (firstn k (sortFixes fixes))))
           <= editsRequested
                (editor (reached host ed (firstn j (sortFixes fixes)))))%nat).
Proof.
  eexists _, _. split; [apply applyAllFixes_ran|].
  split; [apply processAll_log|].
  split; [apply sortFixes_perm|].
  split; [apply sortFixes_sorted|].
  split; [symmetry; apply reached_processAll|].
  split.
  - intros k fx Hk.
    exists (snd (processFix host
                   (reached host ed (firstn k (sortFixes fixes))) fx)).
    split; [|split].
    + rewrite (processAll_nth host _ _ k fx Hk).
      now rewrite <- reached_processAll.
    + rewrite (firstn_S_nth _ _ k fx Hk), reached_snoc.
      now destruct (processFix host _ fx).
    + apply processFix_attemptedAs.
  - intros k j Hkj. now apply reached_editsRequested_mono.
Qed.

(** Without its [catch] the body of the loop throws when the host does, and
    the loop is left: the two proposals above the failing one are never
    reached. *)
Example without_catch_the_loop_is_left :
  forOf (tryBlock (fun _ => Threw))
    (initialBatch (openEditor (str "a()" ++ LF :: str "b()" ++ LF :: str "c()")))
    (sortFixes [proposal "p1" "a()" "A()" 1 1; proposal "p2" "b()" "B()" 2 2;
                proposal "p3" "c()" "C()" 3 3])
  = (mkBatch (mkEditor (str "a()" ++ LF :: str "b()" ++ LF :: str "c()") 1)
       0 0 0 [], [], Throws).
Proof. vm_compute. reflexivity. Qed.

(** C7: whatever the host refuses or throws, the loop is not left before
    its end: with its [try] and [catch] it ends normally, with an entry in
    the log for every proposal and every proposal counted.  An iteration
    that ended in a refused edit or in the [catch] block has changed
    nothing but [failedCount] and the number of edits asked for, and every
    proposal after it in the sorted batch is attempted in its turn: its
    anchor is looked for in the document as it then is, its span tested
    against the recorded ranges, the host asked when it is clear of them,
    and the outcome logged. *)
Theorem loop_continues_after_failure (host : nat -> edit_reply)
    (ed : editor_state) (fixes : list SuggestedFix) :
  exists st log,
    forOf (iteration host) (initialBatch ed) (sortFixes fixes)
    = (st, log, Completes tt)
    /\ applyAllFixes (Some YesApplyAll) host ed fixes = Ran st log
    /\ length log = length fixes
    /\ (appliedCount st + failedCount st + skippedCount st)%nat = length fixes
    /\ forall k fx o,
         nth_error log k = Some (fx, o) -> o = HostRefused \/ o = Raised ->
         absorbed (reached host ed (firstn k (sortFixes fixes)))
                  (reached host ed (firstn (S k) (sortFixes fixes)))
         /\ forall j, (k < j < length fixes)%nat ->
            exists fx' o',
              nth_error (sortFixes fixes) j = Some fx'
              /\ nth_error log j = Some (fx', o')
              /\ attemptedAs host
                   (reached host ed (firstn j (sortFixes fixes))) fx' o'.
Proof.
  eexists _, _. split; [apply forOf_iteration|].
  split; [apply applyAllFixes_ran|].
  split; [now rewrite processAll_log_length, sortFixes_length|].
  split.
  { pose proof (processAll_total host (initialBatch ed) (sortFixes fixes)) as H.
    cbv zeta in H. rewrite H, sortFixes_length. reflexivity. }
  intros k fx o Hlog Hfail.
  assert (Hk : nth_error (sortFixes fixes) k = Some fx).
  { rewrite <- (processAll_log host (initialBatch ed) (sortFixes fixes)).
    rewrite nth_error_map, Hlog. reflexivity. }
  split.
  - rewrite (firstn_S_nth _ _ k fx Hk), reached_snoc.
    apply processFix_absorbed.
    rewrite (processAll_nth host _ _ k fx Hk) in Hlog.
    injection Hlog as Ho. rewrite <- reached_processAll in Ho.
    now rewrite Ho.
  - intros j [_ Hj]. rewrite <- sortFixes_length in Hj.
    destruct (nth_error (sortFixes fixes) j) as [fx'|] eqn:E;
      [|apply nth_error_None in E; lia].
    exists fx', (snd (processFix host
                        (reached host ed (firstn j (sortFixes fixes))) fx')).
    split; [reflexivity|]. split.
    + rewrite (processAll_nth host _ _ j fx' E).
      now rewrite <- reached_processAll.
    + apply processFix_attemptedAs.
Qed.

(** C5, amended: the second run of a batch, on the document the first run
    has left, ends every iteration as not found exactly when no anchor of
    the batch occurs in that document; it then counts every proposal in
    [failedCount], asks nothing of the host and leaves the document as it
    is. *)
Theorem rerun_only_not_found_when_anchors_gone (host1 host2 : nat -> edit_reply)
    (ed : editor_state) (fixes : list SuggestedFix)
    (st1 : batch_state) (log1 : list (SuggestedFix * outcome)) :
  applyAllFixes (Some YesApplyAll) host1 ed fixes = Ran st1 log1 ->
  exists st2 log2,
    applyAllFixes (Some YesApplyAll) host2 (editor st1) fixes = Ran st2 log2
    /\ (Forall (fun e => snd e = NotFound) log2
        <-> forallb (anchorGone (document (editor st1))) fixes = true)
    /\ (forallb (anchorGone (document (editor st1))) fixes = true ->
        st2 = mkBatch (editor st1) 0 (length fixes) 0 []
        /\ log2 = map (fun fx => (fx, NotFound)) (sortFixes fixes)).
Proof.
  intros _. eexists _, _. split; [apply applyAllFixes_ran|].
  assert (Hsorted : forallb (anchorGone (document (editor st1))) fixes = true ->
            Forall (fun fx => anchorGone (document (editor st1)) fx = true)
              (sortFixes fixes)).
  { intros Hgone. rewrite forallb_forall in Hgone. apply Forall_forall.
    intros fx Hin. apply Hgone.
    eapply Permutation_in; [symmetry; apply sortFixes_perm | exact Hin]. }
  split; [split|].
  - intros Hall.
    pose proof (processAll_all_NotFound host2 (initialBatch (editor st1))
                  (sortFixes fixes) Hall) as H.
    rewrite Forall_forall in H. apply forallb_forall.
    intros fx Hin. apply H.
    eapply Permutation_in; [apply sortFixes_perm | exact Hin].
  - intros Hgone.
    rewrite (processAll_gone host2 (initialBatch (editor st1)) (sortFixes fixes)
               (Hsorted Hgone)).
    cbn [snd]. apply Forall_forall. intros e He.
    apply in_map_iff in He as (fx & <- & _). reflexivity.
  - intros Hgone.
    rewrite (processAll_gone host2 (initialBatch (editor st1)) (sortFixes fixes)
               (Hsorted Hgone)).
    cbn [fst snd initialBatch editor appliedCount failedCount skippedCount
         modifiedRanges].
    now rewrite sortFixes_length.
Qed.

Lemma rerun_only_not_found_when_anchors_gone_witness :
  exists st2 log2,
    applyAllFixes (Some YesApplyAll) acceptAll (mkEditor parseDocument 1)
      [proposal "fix_0" "eval(input)" "JSON.parse(input)" 1 1]
    = Ran st2 log2
    /\ (Forall (fun e => snd e = NotFound) log2
        <-> forallb (anchorGone parseDocument)
              [proposal "fix_0" "eval(input)" "JSON.parse(input)" 1 1] = true)
    /\ (forallb (anchorGone parseDocument)
          [proposal "fix_0" "eval(input)" "JSON.parse(input)" 1 1] = true ->
        st2 = mkBatch (mkEditor parseDocument 1) 0 1 0 []
        /\ log2 = map (fun fx => (fx, NotFound))
                    (sortFixes
                       [proposal "fix_0" "eval(input)" "JSON.parse(input)" 1 1])).
Proof.
  exact (rerun_only_not_found_when_anchors_gone acceptAll acceptAll
           (openEditor evalDocument)
           [proposal "fix_0" "eval(input)" "JSON.parse(input)" 1 1]
           (mkBatch (mkEditor parseDocument 1) 1 0 0 [mkRange 8 19])
           [(proposal "fix_0" "eval(input)" "JSON.parse(input)" 1 1, Applied)]
           eq_refl).
Defined.
